(** * SerialSfnConstruct: the [chainTasks] / [addChoice] builder

    A shallow embedding of the construct class of the repository
    (lib/constructs, TypeScript) and the properties of its recursive
    chain builder.

    The class receives JavaScript arrays of descriptors and consumes them
    with [Array.prototype.shift], so the arrays live in a store and are
    passed by reference: a descriptor list is a location, and the store maps
    a location to the current content of the array.  The array [choices] of
    a choice is only iterated and stands as a list.  The calls into the CDK
    library ([new LambdaInvoke], [new Choice], [when], [afterwards], [next],
    [addRetry], [addCatch], ...) are recorded as terms that keep the
    arguments of the call, and every [new X(this, id, ...)] as one more
    child of the scope [this]; the library itself (its validation of ids and
    of state graphs, the synthesis of the template) is not modelled.  So a
    call that returns here can still throw inside the library: [new X(this,
    id)] on an id the scope already has, [addRetry] and [addCatch] on an
    error list they refuse, [next] on a choice without a branch.  The
    properties below are therefore about calls that return (then the value
    is the one given here), or about the [TypeError]s of the class's own
    code, which come before any such check on the inputs they are stated
    for.

    [chainTasks] and [addChoice] call each other and the arrays they work on
    change under them, so [chainTasks] takes fuel, the depth of calls it may
    use; the number of descriptors in the store plus one is always enough
    ([chainTasks_returns]) and more fuel changes nothing
    ([chainTasks_mono]). *)

From stdpp Require Import base option list gmap strings.

Open Scope string_scope.
Open Scope list_scope.

(** ** Outcome of a call

    A call returns a value, throws a JavaScript [TypeError] (a property read
    on [undefined], a missing method), or the model ran out of fuel. *)

Inductive result (A : Type) : Type :=
| Ok (a : A)
| TypeError
| OutOfFuel.
Arguments Ok {A} a.
Arguments TypeError {A}.
Arguments OutOfFuel {A}.

#[global] Instance result_ret : MRet result := fun A a => Ok a.
#[global] Instance result_bind : MBind result := fun A B k m =>
  match m with
  | Ok a => k a
  | TypeError => TypeError
  | OutOfFuel => OutOfFuel
  end.

(** ** The descriptor types *)

Abbreviation loc := positive.

Module Types.

(** Modelled from the spec: the module '../types' is not part of the
    sources.  The spec names the descriptors' content (task name, function
    reference, optional retry policy, choice conditions, optional error
    handler); the fields and their optionality are the ones the class
    reads.  A function reference and a choice condition are opaque to the
    class and stand here as strings, a retry interval as a number. *)

Definition IFunction := string.
Definition Condition := string.
Definition Duration := Z.

Record ISfnConfig := {
  retryInterval : Duration;
  retryAttempts : Z;
  errors : list string;
}.

Record ISfnObject := {
  name : string;
  function : IFunction;
  config : option ISfnConfig;
}.

(** A [Pass] state: the only thing the class asks of it is whether it
    has the key 'endStates', which every state has and no array has. *)
Record Pass := { passId : string }.

(** [Array<ISfnObject> | Pass]: an array is a reference into the store. *)
Inductive Functions :=
| FArray (a : loc)
| FPass (p : Pass).

(** An entry of [choices]; [functions] is optional (the class reads it
    with a non-null assertion). *)
Record ISfnChoiceObj := {
  condition : Condition;
  functions : option Functions;
}.

Record ISfnChoice := {
  choiceName : string;
  choices : list ISfnChoiceObj;
  defaultFunctions : Functions;
}.

(** [ISfnObject | ISfnChoice]: a choice is the one with the key
    'choices'. *)
Inductive Item :=
| ItObject (o : ISfnObject)
| ItChoice (c : ISfnChoice).

Record ISfnErrorHandler := {
  handlerName : string;
  handlerFunction : IFunction;
  handlerErrors : list string;
}.

Record SerialSfnProps := {
  lambdaFunctions : loc;
  errorHandler : option ISfnErrorHandler;
  stateMachineName : string;
}.

End Types.
Import Types.

(** ** What the CDK calls build *)

Record RetryProps := {
  interval : Duration;
  maxAttempts : Z;
  retryErrors : list string;
}.

Record LambdaInvoke := {
  id : string;
  lambdaFunction : IFunction;
  inputPath : option string;
  retryOnServiceExceptions : bool;
  retries : list RetryProps;
}.

(** The second argument of [Choice.when]: a chain, or the
    [defaultFunctions] object handed over as it is. *)
Inductive Branch (C : Type) : Type :=
| BChain (c : C)
| BRaw (f : Functions).
Arguments BChain {C} c.
Arguments BRaw {C} f.

#[warnings="-register-all"]
Inductive Chain :=
| CTask (t : LambdaInvoke)
| CAfterwards (choiceId : string) (whens : list (Condition * Branch Chain))
| CNext (task next : Chain).

Record CatchProps := {
  catchHandler : LambdaInvoke;
  catchErrors : list string;
  resultPath : string;
}.

Record Parallel := {
  parallelId : string;
  branches : list Chain;
  catches : list CatchProps;
}.

Inductive RemovalPolicy := DESTROY | RETAIN.
Inductive LogLevel := ALL | ERROR | FATAL | OFF.

Record LogGroup := {
  logGroupId : string;
  logGroupName : string;
  removalPolicy : RemovalPolicy;
}.

Record StateMachine := {
  stateMachineId : string;
  definition : Parallel;
  machineName : string;
  logsDestination : LogGroup;
  logsLevel : LogLevel;
}.

(** A child construct registered in the scope [this] by a [new X(this, id,
    ...)].  A Lambda task is recorded as [chainTasks] leaves it (after its
    [addRetry]), a choice and a parallel by their id. *)
Inductive Construct :=
| KLambda (t : LambdaInvoke)
| KChoice (choiceId : string)
| KParallel (parallelId : string)
| KLogGroup (g : LogGroup)
| KStateMachine (m : StateMachine).

(** ** The store *)

Record St := {
  heap : gmap loc (list Item);
  children : list Construct;
}.

Definition set_heap (h : gmap loc (list Item)) (s : St) : St :=
  {| heap := h; children := children s |}.

(** [new X(this, ...)]: one more child of the scope. *)
Definition new (k : Construct) (s : St) : St :=
  {| heap := heap s; children := children s ++ [k] |}.

(** [a.shift()]: removes and returns the first element, [undefined] and no
    change on the empty array; a value that is not an array has no
    [shift]. *)
Definition shift (a : loc) (s : St) : result (option Item * St) :=
  match heap s !! a with
  | Some arr => Ok (head arr, set_heap (<[a := tail arr]> (heap s)) s)
  | None => TypeError
  end.

(** [a.length] *)
Definition array_length (a : loc) (s : St) : result nat :=
  match heap s !! a with
  | Some arr => Ok (length arr)
  | None => TypeError
  end.

(** ** The class *)

(** [config]: the retry properties of a task. *)
Definition config (config : ISfnConfig) : RetryProps :=
  {| interval := retryInterval config;
     maxAttempts := retryAttempts config;
     retryErrors := errors config |}.

(** The Lambda task of [chainTasks], lines 97 to 104: the [new
    LambdaInvoke] and the [addRetry] that follows it when the descriptor
    has a [config]. *)
Definition lambdaTask (sfnObject : ISfnObject) (first : bool) : LambdaInvoke :=
  let task :=
    {| id := name sfnObject;
       lambdaFunction := function sfnObject;
       inputPath := if first then None else Some "$.Payload";
       retryOnServiceExceptions := false;
       retries := [] |} in
  match Types.config sfnObject with
  | Some c =>
      {| id := id task;
         lambdaFunction := lambdaFunction task;
         inputPath := inputPath task;
         retryOnServiceExceptions := retryOnServiceExceptions task;
         retries := retries task ++ [config c] |}
  | None => task
  end.

(** ['endStates' in f] *)
Definition has_endStates (f : Functions) : bool :=
  match f with
  | FPass _ => true
  | FArray _ => false
  end.

Section methods.

(** [this.chainTasks], the call back into the recursion. *)
Variable rec : loc -> bool -> St -> result (Chain * St).

(** [addChoice], the [for ... of choice.choices] loop; [res] are the
    branches the choice has so far.  The two casts of [defaultFunctions] do
    not change the object: a [Pass] that goes to [chainTasks] has no [shift]
    there, and an array that goes to [res.when] as a [Pass] has no start
    state for [when] to call, a [TypeError] each. *)
Fixpoint addChoice_loop (choice : ISfnChoice) (first : bool)
    (todo : list ISfnChoiceObj) (res : list (Condition * Branch Chain))
    (s : St) : result (list (Condition * Branch Chain) * St) :=
  match todo with
  | [] => Ok (res, s)
  | choiceObj :: todo =>
      fs ← match functions choiceObj with
           | Some fs => Ok fs
           | None => TypeError
           end;
      '(next, s) ←
        (if has_endStates fs then
           match defaultFunctions choice with
           | FPass p => Ok (BRaw (FPass p), s)
           | FArray _ => TypeError
           end
         else
           match defaultFunctions choice with
           | FArray a =>
               '(c, s) ← rec a first s;
               Ok (BChain c, s)
           | FPass _ => TypeError
           end);
      addChoice_loop choice first todo
        (res ++ [(condition choiceObj, next)]) s
  end.

Definition addChoice (choice : ISfnChoice) (first : bool) (s : St)
    : result (Chain * St) :=
  let s := new (KChoice (choiceName choice)) s in
  if decide (length (choices choice) = 0) then
    Ok (CAfterwards (choiceName choice) [], s)
  else
    '(whens, s) ← addChoice_loop choice first (choices choice) [] s;
    Ok (CAfterwards (choiceName choice) whens, s).

(** [chainTasks], lines 88 to 105: the descriptor is shifted and its
    [task] built; the result has [task] and the value of [first] after it. *)
Definition chainTasks_task (lambdaFunctions : loc) (first : bool) (s : St)
    : result (Chain * bool * St) :=
  '(sfnObject, s) ← shift lambdaFunctions s;
  match sfnObject with
  | Some (ItChoice sfnObject) =>
      '(task, s) ← addChoice sfnObject first s;
      Ok (task, first, s)
  | Some (ItObject sfnObject) =>
      let task := lambdaTask sfnObject first in
      Ok (CTask task, false, new (KLambda task) s)
  | None => TypeError
  end.

(** [chainTasks], the whole body: lines 107 to 110 after the task. *)
Definition chainTasks_body (lambdaFunctions : loc) (first : bool) (s : St)
    : result (Chain * St) :=
  '(task, first, s) ← chainTasks_task lambdaFunctions first s;
  len ← array_length lambdaFunctions s;
  if decide (len = 0) then Ok (task, s)
  else
    '(rest, s) ← rec lambdaFunctions first s;
    Ok (CNext task rest, s).

End methods.

(** [chainTasks]: [fuel] bounds the depth of the recursion. *)
Fixpoint chainTasks (fuel : nat) (lambdaFunctions : loc) (first : bool)
    (s : St) : result (Chain * St) :=
  match fuel with
  | 0 => OutOfFuel
  | S fuel => chainTasks_body (chainTasks fuel) lambdaFunctions first s
  end.

(** The constructor of [SerialSfnConstruct]; [id] is the construct id.  The
    result is the field [stateMachine], [None] when it is left unset. *)
Definition constructor (fuel : nat) (id : string) (props : SerialSfnProps)
    (s : St) : result (option StateMachine * St) :=
  len ← array_length (lambdaFunctions props) s;
  if decide (len = 0) then Ok (None, s)
  else
    let firstFunction := true in
    let parallel := "paralle-" +:+ id in
    let s := new (KParallel parallel) s in
    '(chain, s) ← chainTasks fuel (lambdaFunctions props) firstFunction s;
    let definition :=
      {| parallelId := parallel; branches := [chain]; catches := [] |} in
    let '(definition, s) :=
      match errorHandler props with
      | Some errorHandler =>
          let handler :=
            {| id := handlerName errorHandler;
               lambdaFunction := handlerFunction errorHandler;
               inputPath := None;
               retryOnServiceExceptions := false;
               retries := [] |} in
          ({| parallelId := parallelId definition;
              branches := branches definition;
              catches := catches definition ++
                [{| catchHandler := handler;
                    catchErrors := handlerErrors errorHandler;
                    resultPath := "$.error" |}] |},
           new (KLambda handler) s)
      | None => (definition, s)
      end in
    let logGroup :=
      {| logGroupId := "logGroup-" +:+ id;
         logGroupName := "/aws/vendedlogs/states/" +:+ stateMachineName props;
         removalPolicy := DESTROY |} in
    let s := new (KLogGroup logGroup) s in
    let stateMachine :=
      {| stateMachineId := stateMachineName props;
         definition := definition;
         machineName := stateMachineName props;
         logsDestination := logGroup;
         logsLevel := ALL |} in
    Ok (Some stateMachine, new (KStateMachine stateMachine) s).

(** * Notions used in the properties *)

(** The number of descriptors in all the arrays of the store. *)
Definition heap_size (h : gmap loc (list Item)) : nat :=
  map_fold (fun _ arr n => length arr + n) 0 h.

(** Every array of the store is, after the call, a suffix of what it was. *)
Definition shrinks (s s' : St) : Prop :=
  forall a arr, heap s !! a = Some arr ->
    exists arr', heap s' !! a = Some arr' /\ arr' `suffix_of` arr.

(** An entry of [choices] for which [addChoice] calls [chainTasks]: its
    [functions] are there and are no [Pass]. *)
Definition builds_chain (choiceObj : ISfnChoiceObj) : bool :=
  match functions choiceObj with
  | Some fs => negb (has_endStates fs)
  | None => false
  end.

(** [k] was built from a descriptor that is in an array of [s]. *)
Definition built_from (s : St) (k : Construct) : Prop :=
  match k with
  | KLambda t =>
      exists a arr o first,
        heap s !! a = Some arr /\ ItObject o ∈ arr /\ t = lambdaTask o first
  | KChoice n =>
      exists a arr c,
        heap s !! a = Some arr /\ ItChoice c ∈ arr /\ n = choiceName c
  | _ => False
  end.

(** [builds s s' added]: from [s] to [s'] no array is created, every array
    lost a prefix, the scope gained the children [added], each of them built
    from a descriptor of [s], and every task descriptor that was taken out
    of an array has its Lambda task among them. *)
Definition builds (s s' : St) (added : list Construct) : Prop :=
  children s' = children s ++ added /\
  Forall (built_from s) added /\
  forall a,
    match heap s !! a with
    | Some arr =>
        exists used arr',
          heap s' !! a = Some arr' /\ arr = used ++ arr' /\
          forall o, ItObject o ∈ used ->
            exists first, KLambda (lambdaTask o first) ∈ added
    | None => heap s' !! a = None
    end.

(** [R] holds the arrays a call can reach from an array in [R]: with an
    array it has the [defaultFunctions] arrays of the choices in it. *)
Definition closed (R : gset loc) (s : St) : Prop :=
  forall a arr c d,
    a ∈ R -> heap s !! a = Some arr -> ItChoice c ∈ arr ->
    defaultFunctions c = FArray d -> d ∈ R.

(** The two stores have the same arrays at the locations of [R]. *)
Definition agree (R : gset loc) (s1 s2 : St) : Prop :=
  forall a, a ∈ R -> heap s1 !! a = heap s2 !! a.

(** Same outcome, and on a return the same value and stores that still
    agree on [R]. *)
Definition alike (R : gset loc) {A} (r1 r2 : result (A * St)) : Prop :=
  match r1, r2 with
  | Ok (x1, s1), Ok (x2, s2) => x1 = x2 /\ closed R s1 /\ agree R s1 s2
  | TypeError, TypeError => True
  | OutOfFuel, OutOfFuel => True
  | _, _ => False
  end.

(** The chain of a list of task descriptors [o :: os]: one Lambda task
    after the other, the first one built with the flag [first]. *)
Fixpoint task_chain (first : bool) (o : ISfnObject) (os : list ISfnObject)
    : Chain :=
  match os with
  | [] => CTask (lambdaTask o first)
  | o' :: os => CNext (CTask (lambdaTask o first)) (task_chain false o' os)
  end.

(** ** Descriptors and stores of the examples *)

Definition task (n : string) : ISfnObject :=
  {| name := n; function := "arn:aws:lambda:" +:+ n; Types.config := None |}.

Definition retrying (n : string) : ISfnObject :=
  {| name := n;
     function := "arn:aws:lambda:" +:+ n;
     Types.config := Some {| retryInterval := 5%Z; retryAttempts := 3%Z;
                             errors := ["States.Timeout"] |} |}.

Definition store (arrays : list (loc * list Item)) : St :=
  {| heap := list_to_map arrays; children := [] |}.

(** A choice with one branch: [functions] is the array 3,
    [defaultFunctions] the array 2. *)
Definition one_branch : ISfnChoice :=
  {| choiceName := "route";
     choices := [ {| condition := "isA"; functions := Some (FArray 3) |} ];
     defaultFunctions := FArray 2 |}.

(** A choice with two branches, [functions] the arrays 3 and 4. *)
Definition two_branches : ISfnChoice :=
  {| choiceName := "route";
     choices := [ {| condition := "isA"; functions := Some (FArray 3) |};
                  {| condition := "isB"; functions := Some (FArray 4) |} ];
     defaultFunctions := FArray 2 |}.

(** The list [[one_branch, g]] at 1, with [[h]] and [[f]] for the choice. *)
Definition choice_then_task : St :=
  store [ (1%positive, [ItChoice one_branch; ItObject (task "g")]);
          (2%positive, [ItObject (task "h")]);
          (3%positive, [ItObject (task "f")]) ].

(** The list [[two_branches]] at 1, with [[h]], [[f]] and [[g]] for the
    choice. *)
Definition two_branch_choice : St :=
  store [ (1%positive, [ItChoice two_branches]);
          (2%positive, [ItObject (task "h")]);
          (3%positive, [ItObject (task "f")]);
          (4%positive, [ItObject (task "g")]) ].

(** The list [[a, b]] at 1, [b] with a retry policy. *)
Definition two_tasks : St :=
  store [ (1%positive, [ItObject (task "a"); ItObject (retrying "b")]) ].

(** The same list at 1 in another store: one more array, and a scope that
    has a child already. *)
Definition two_tasks_elsewhere : St :=
  {| heap := <[9%positive := [ItObject (task "z")]]> (heap two_tasks);
     children := [KParallel "paralle-other"] |}.

(** The empty list at 1. *)
Definition no_task : St := store [ (1%positive, []) ].

Definition onError : ISfnErrorHandler :=
  {| handlerName := "onError";
     handlerFunction := "arn:aws:lambda:onError";
     handlerErrors := ["States.ALL"] |}.

(** The calls [chainTasks] makes from the body of its call on the list [a]
    in the store [s] all receive a list strictly shorter than the list at
    [a]: what [chainTasks] does on any other list has no part in the
    outcome of the body. *)
Definition calls_on_shorter_lists (a : loc) (first : bool) (s : St) : Prop :=
  forall rec rec' : loc -> bool -> St -> result (Chain * St),
    (forall a' first' s',
       length (heap s' !!! a') < length (heap s !!! a) ->
       rec' a' first' s' = rec a' first' s') ->
    chainTasks_body rec' a first s = chainTasks_body rec a first s.

(** The list [[one_branch]] at 1, with the longer list [[h, k]] as the
    [defaultFunctions] of the choice at 2, and [[f]] at 3. *)
Definition longer_branch : St :=
  store [ (1%positive, [ItChoice one_branch]);
          (2%positive, [ItObject (task "h"); ItObject (retrying "k")]);
          (3%positive, [ItObject (task "f")]) ].

(** ** Notions of the further properties *)

(** The Lambda tasks among the children of a scope, in their order. *)
Definition lambdas (ks : list Construct) : list LambdaInvoke :=
  omap (fun k => match k with KLambda t => Some t | _ => None end) ks.

(** What the flag [first] promises about the input paths of the Lambda
    tasks [ts] built under it, in the order they were built: under [true]
    the first of them reads the whole input, under [false] each of them
    reads ['$.Payload']. *)
Definition input_paths (first : bool) (ts : list LambdaInvoke) : Prop :=
  if first then forall t, head ts = Some t -> inputPath t = None
  else Forall (fun t => inputPath t = Some "$.Payload") ts.

(** The id of the state a descriptor becomes. *)
Definition item_id (it : Item) : string :=
  match it with
  | ItObject o => name o
  | ItChoice c => choiceName c
  end.

(** The states a chain goes through at its top level, in their order: a
    Lambda task, a choice (its branches are inside it), or the states of
    [task] then those of [next] for [task.next(next)]. *)
Fixpoint states (c : Chain) : list string :=
  match c with
  | CTask t => [id t]
  | CAfterwards n _ => [n]
  | CNext task next => states task ++ states next
  end.

(** From [s] to [s'] the arrays outside [R] are as they were, and [R] still
    holds what can be reached from it. *)
Definition within (R : gset loc) (s s' : St) : Prop :=
  closed R s' /\ forall b, b ∉ R -> heap s' !! b = heap s !! b.

(** An entry of [choices] whose [functions] are a [Pass]. *)
Definition passes (choiceObj : ISfnChoiceObj) : Prop :=
  exists p, functions choiceObj = Some (FPass p).

(** The branch [addChoice] makes for an entry that [passes]. *)
Definition pass_branch (choice : ISfnChoice) (choiceObj : ISfnChoiceObj)
    : Condition * Branch Chain :=
  (condition choiceObj, BRaw (defaultFunctions choice)).

(** A choice whose two branches and whose [defaultFunctions] are [Pass]
    states. *)
Definition pass_choice : ISfnChoice :=
  {| choiceName := "gate";
     choices :=
       [ {| condition := "isA";
            functions := Some (FPass {| passId := "skip" |}) |};
         {| condition := "isB";
            functions := Some (FPass {| passId := "skip" |}) |} ];
     defaultFunctions := FPass {| passId := "done" |} |}.

(** The arrays of [one_branch]: [[h, k]] at 2 and [[f]] at 3. *)
Definition branch_arrays : St :=
  store [ (2%positive, [ItObject (task "h"); ItObject (retrying "k")]);
          (3%positive, [ItObject (task "f")]) ].

(** * Properties *)

(** ** Inversion of the monad *)

Lemma bind_Ok {A B} (m : result A) (k : A -> result B) (b : B) :
  m ≫= k = Ok b -> exists a, m = Ok a /\ k a = Ok b.
Proof. destruct m as [a| |]; simpl; [eauto | discriminate | discriminate]. Qed.

Lemma bind_not_OutOfFuel {A B} (m : result A) (k : A -> result B) :
  m <> OutOfFuel -> (forall a, m = Ok a -> k a <> OutOfFuel) ->
  m ≫= k <> OutOfFuel.
Proof. destruct m as [a| |]; simpl; [eauto | discriminate | congruence]. Qed.

Lemma bind_OutOfFuel_inv {A B} (m : result A) (k : A -> result B) :
  m ≫= k <> OutOfFuel -> m <> OutOfFuel.
Proof. by destruct m. Qed.

Lemma shift_Ok a s o s' :
  shift a s = Ok (o, s') ->
  exists arr, heap s !! a = Some arr /\ o = head arr /\
    s' = set_heap (<[a := tail arr]> (heap s)) s.
Proof.
  unfold shift. destruct (heap s !! a) as [arr|]; [|discriminate].
  intros [= <- <-]. eauto.
Qed.

Lemma array_length_Ok a s n :
  array_length a s = Ok n -> exists arr, heap s !! a = Some arr /\ n = length arr.
Proof.
  unfold array_length. destruct (heap s !! a) as [arr|]; [|discriminate].
  intros [= <-]. eauto.
Qed.

Lemma shift_not_OutOfFuel a s : shift a s <> OutOfFuel.
Proof. unfold shift. by destruct (heap s !! a). Qed.

Lemma array_length_not_OutOfFuel a s : array_length a s <> OutOfFuel.
Proof. unfold array_length. by destruct (heap s !! a). Qed.

(** Splits a hypothesis [m ≫= k = Ok b] into the two calls. *)
Ltac inv_bind H :=
  let x := fresh "x" in
  let Hx := fresh "Hx" in
  apply bind_Ok in H; destruct H as (x & Hx & H); simpl in H.

(** ** A rule for properties of the store

    A relation between the store before and after that is transitive and
    holds across the two kinds of step of [chainTasks] (a task descriptor
    shifted and its Lambda task registered; a choice descriptor shifted and
    its choice registered) holds across every call that returns. *)

Section invariant.

Variable Inv : St -> St -> Prop.
Hypothesis Inv_trans : forall s1 s2 s3, Inv s1 s2 -> Inv s2 s3 -> Inv s1 s3.
Hypothesis Inv_object : forall a s o s1 first,
  shift a s = Ok (Some (ItObject o), s1) ->
  Inv s (new (KLambda (lambdaTask o first)) s1).
Hypothesis Inv_choice : forall a s c s1,
  shift a s = Ok (Some (ItChoice c), s1) ->
  Inv s (new (KChoice (choiceName c)) s1).

Lemma addChoice_loop_inv rec choice first todo res s0 s whens s' :
  (forall a f s c s', rec a f s = Ok (c, s') -> Inv s s') ->
  Inv s0 s ->
  addChoice_loop rec choice first todo res s = Ok (whens, s') ->
  Inv s0 s'.
Proof.
  intros Hrec. revert res s.
  induction todo as [|choiceObj todo IH]; intros res s Hs H; simpl in H.
  - by injection H as <- <-.
  - inv_bind H. inv_bind H. destruct x0 as [next s1].
    eapply (IH _ s1); [|exact H].
    destruct (has_endStates x).
    + destruct (defaultFunctions choice) as [d|p]; [discriminate|].
      by injection Hx0 as <- <-.
    + destruct (defaultFunctions choice) as [d|]; [|discriminate].
      inv_bind Hx0. destruct x0 as [c s2]. injection Hx0 as <- <-.
      eauto.
Qed.

Lemma addChoice_inv rec choice first s0 s task s' :
  (forall a f s c s', rec a f s = Ok (c, s') -> Inv s s') ->
  Inv s0 (new (KChoice (choiceName choice)) s) ->
  addChoice rec choice first s = Ok (task, s') ->
  Inv s0 s'.
Proof.
  intros Hrec Hs. unfold addChoice. case_decide as Hlen.
  - by intros [= <- <-].
  - intros H. inv_bind H. destruct x as [whens s1]. injection H as <- <-.
    eauto using addChoice_loop_inv.
Qed.

Lemma chainTasks_task_inv rec a first s task first' s' :
  (forall a f s c s', rec a f s = Ok (c, s') -> Inv s s') ->
  chainTasks_task rec a first s = Ok (task, first', s') -> Inv s s'.
Proof.
  intros Hrec H. unfold chainTasks_task in H.
  inv_bind H. destruct x as [sfnObject s1]. simpl in H.
  destruct sfnObject as [[o|c]|]; [| |discriminate].
  - injection H as <- <- <-. eauto.
  - inv_bind H. destruct x as [task' s3]. injection H as <- <- <-.
    eapply addChoice_inv; eauto.
Qed.

Lemma chainTasks_inv fuel a first s chain s' :
  chainTasks fuel a first s = Ok (chain, s') -> Inv s s'.
Proof.
  revert a first s chain s'.
  induction fuel as [|fuel IH]; intros a first s chain s' H; [discriminate|].
  simpl in H. unfold chainTasks_body in H.
  inv_bind H. destruct x as [[task first'] s2]. simpl in H.
  apply chainTasks_task_inv in Hx; [|exact IH].
  inv_bind H. case_decide as Hlen.
  - by injection H as <- <-.
  - inv_bind H. destruct x0 as [rest s3]. injection H as <- <-.
    eauto.
Qed.

End invariant.

(** ** The arrays only lose elements *)

Lemma heap_size_delete h a arr :
  h !! a = Some arr -> heap_size h = length arr + heap_size (delete a h).
Proof.
  intros Ha. unfold heap_size.
  apply (map_fold_delete_L (fun _ arr n => length arr + n)); [|done].
  intros; lia.
Qed.

Lemma heap_size_insert h a arr arr' :
  h !! a = Some arr ->
  heap_size (<[a := arr']> h) + length arr = heap_size h + length arr'.
Proof.
  intros Ha. rewrite (heap_size_delete h a arr Ha).
  rewrite <- (insert_delete_eq h a arr').
  unfold heap_size at 1.
  rewrite (map_fold_insert_L (fun _ arr n => length arr + n));
    [|intros; lia|apply lookup_delete_eq].
  fold (heap_size (delete a h)). lia.
Qed.

Lemma shift_size a s o s' :
  shift a s = Ok (o, s') -> heap_size (heap s') <= heap_size (heap s).
Proof.
  intros (arr & Ha & -> & ->)%shift_Ok. simpl.
  pose proof (heap_size_insert (heap s) a arr (tail arr) Ha) as Hsz.
  destruct arr; simpl in *; lia.
Qed.

Lemma shift_Some_size a s it s' :
  shift a s = Ok (Some it, s') -> heap_size (heap s') < heap_size (heap s).
Proof.
  intros (arr & Ha & Hhd & ->)%shift_Ok. simpl.
  pose proof (heap_size_insert (heap s) a arr (tail arr) Ha) as Hsz.
  destruct arr; [discriminate|]. simpl in *. lia.
Qed.

Lemma chainTasks_size fuel a first s chain s' :
  chainTasks fuel a first s = Ok (chain, s') ->
  heap_size (heap s') <= heap_size (heap s).
Proof.
  apply (chainTasks_inv (fun s s' => heap_size (heap s') <= heap_size (heap s))).
  - intros; lia.
  - intros ????? H. simpl. by apply shift_size in H.
  - intros ???? H. simpl. by apply shift_size in H.
Qed.

Lemma shrinks_trans s1 s2 s3 : shrinks s1 s2 -> shrinks s2 s3 -> shrinks s1 s3.
Proof.
  intros H12 H23 a arr Ha.
  destruct (H12 a arr Ha) as (arr2 & Ha2 & Hs2).
  destruct (H23 a arr2 Ha2) as (arr3 & Ha3 & Hs3).
  exists arr3. split; [done|]. by etrans.
Qed.

Lemma suffix_tail (l : list Item) : tail l `suffix_of` l.
Proof. destruct l; [done|]. by apply suffix_cons_r. Qed.

Lemma shift_shrinks a s o s' : shift a s = Ok (o, s') -> shrinks s s'.
Proof.
  intros (arr & Ha & -> & ->)%shift_Ok b arr' Hb. simpl.
  destruct (decide (a = b)) as [<-|Hne].
  - rewrite lookup_insert_eq. exists (tail arr). split; [done|].
    rewrite Ha in Hb. injection Hb as <-. apply suffix_tail.
  - rewrite lookup_insert_ne by done. by exists arr'.
Qed.

Lemma chainTasks_shrinks fuel a first s chain s' :
  chainTasks fuel a first s = Ok (chain, s') -> shrinks s s'.
Proof.
  apply (chainTasks_inv shrinks).
  - apply shrinks_trans.
  - intros ????? H. by apply shift_shrinks in H.
  - intros ???? H. by apply shift_shrinks in H.
Qed.

(** The task of a call is built with one descriptor less in the array of
    the call (more than one less when a choice shares that array). *)
Lemma chainTasks_task_shorter fuel a first s arr task first' s' :
  heap s !! a = Some arr ->
  chainTasks_task (chainTasks fuel) a first s = Ok (task, first', s') ->
  exists arr', heap s' !! a = Some arr' /\ length arr' < length arr.
Proof.
  intros Ha H. unfold chainTasks_task in H.
  inv_bind H. destruct x as [sfnObject s1].
  pose proof (shift_Ok _ _ _ _ Hx) as (arr0 & Ha0 & Hhd & Hs1).
  rewrite Ha in Ha0. injection Ha0 as <-.
  destruct arr as [|it rest]; [by subst sfnObject|].
  assert (heap s1 !! a = Some rest) as Ha1.
  { subst s1. simpl. by rewrite lookup_insert_eq. }
  assert (shrinks s1 s') as Hsh.
  { destruct sfnObject as [[o|c]|]; [| |discriminate].
    - injection H as <- <- <-. intros b arr' Hb. exists arr'. by split.
    - inv_bind H. destruct x as [task' s3]. injection H as <- <- <-.
      revert Hx0. apply (addChoice_inv shrinks).
      + apply shrinks_trans.
      + apply chainTasks_shrinks.
      + intros b arr' Hb. exists arr'. by split. }
  destruct (Hsh a rest Ha1) as (arr' & Ha' & Hsuf).
  exists arr'. split; [done|]. apply suffix_length in Hsuf. simpl. lia.
Qed.

(** ** A call that returns has emptied its array *)

Lemma chainTasks_nonempty fuel a first s chain s' :
  chainTasks fuel a first s = Ok (chain, s') ->
  exists it rest, heap s !! a = Some (it :: rest).
Proof.
  destruct fuel as [|fuel]; [discriminate|]. simpl. intros H.
  unfold chainTasks_body, chainTasks_task in H.
  inv_bind H. inv_bind Hx. destruct x0 as [sfnObject s1].
  apply shift_Ok in Hx0 as (arr & Ha & -> & ->).
  destruct arr as [|it rest]; [discriminate|]. eauto.
Qed.

Lemma chainTasks_emptied fuel a first s chain s' :
  chainTasks fuel a first s = Ok (chain, s') -> heap s' !! a = Some [].
Proof.
  revert first s chain s'.
  induction fuel as [|fuel IH]; intros first s chain s' H; [discriminate|].
  simpl in H. unfold chainTasks_body in H.
  inv_bind H. destruct x as [[task first'] s2]. simpl in H.
  inv_bind H. case_decide as Hlen.
  - injection H as <- <-.
    apply array_length_Ok in Hx0 as (arr & Ha & ->).
    by apply nil_length_inv in Hlen as ->.
  - inv_bind H. destruct x0 as [rest s3]. injection H as <- <-. eauto.
Qed.

(** A second call on the same array shifts [undefined] and throws. *)
Lemma chainTasks_empty_throws fuel a first s :
  heap s !! a = Some [] -> chainTasks (S fuel) a first s = TypeError.
Proof.
  intros Ha. simpl. unfold chainTasks_body, chainTasks_task, shift.
  by rewrite Ha.
Qed.

(** A second run on the store the first one left finds the array empty:
    the arrays are the state the runs share. *)
Lemma chainTasks_again_throws fuel fuel' a first first' s chain s' :
  chainTasks fuel a first s = Ok (chain, s') ->
  chainTasks (S fuel') a first' s' = TypeError.
Proof.
  intros H. apply chainTasks_empty_throws. by apply chainTasks_emptied in H.
Qed.

(** ** Termination: fuel above the size of the store is never used up *)

Section termination.

Variable rec : loc -> bool -> St -> result (Chain * St).
Variable bound : nat.
Hypothesis rec_returns : forall a f s,
  heap_size (heap s) < bound -> rec a f s <> OutOfFuel.
Hypothesis rec_size : forall a f s c s',
  rec a f s = Ok (c, s') -> heap_size (heap s') <= heap_size (heap s).

Lemma addChoice_loop_returns choice first todo res s :
  heap_size (heap s) < bound ->
  addChoice_loop rec choice first todo res s <> OutOfFuel.
Proof.
  revert res s. induction todo as [|choiceObj todo IH]; intros res s Hs.
  - done.
  - simpl. destruct (functions choiceObj) as [fs|]; [simpl|done].
    destruct (has_endStates fs);
      [destruct (defaultFunctions choice); [done|by apply IH]|].
    destruct (defaultFunctions choice) as [d|]; [|done].
    apply bind_not_OutOfFuel.
    + apply bind_not_OutOfFuel; [by apply rec_returns|].
      by intros [c s1] _.
    + intros [next s1] H. inv_bind H. destruct x as [c s2].
      injection H as <- <-. apply IH.
      apply rec_size in Hx. lia.
Qed.

Lemma addChoice_returns choice first s :
  heap_size (heap s) < bound ->
  addChoice rec choice first s <> OutOfFuel.
Proof.
  intros Hs. unfold addChoice. case_decide as Hlen; [done|].
  apply bind_not_OutOfFuel; [by apply addChoice_loop_returns|].
  by intros [whens s1] _.
Qed.

Lemma chainTasks_task_returns a first s :
  heap_size (heap s) <= bound ->
  chainTasks_task rec a first s <> OutOfFuel.
Proof.
  intros Hs. unfold chainTasks_task.
  apply bind_not_OutOfFuel; [apply shift_not_OutOfFuel|].
  intros [sfnObject s1] Hshift. simpl.
  destruct sfnObject as [[o|c]|]; [done| |done].
  apply shift_Some_size in Hshift.
  apply bind_not_OutOfFuel; [apply addChoice_returns; lia|].
  by intros [task s2] _.
Qed.

End termination.

Lemma chainTasks_task_size fuel a first s task first' s' :
  chainTasks_task (chainTasks fuel) a first s = Ok (task, first', s') ->
  heap_size (heap s') < heap_size (heap s).
Proof.
  intros H. unfold chainTasks_task in H.
  inv_bind H. destruct x as [sfnObject s1].
  destruct sfnObject as [it|]; [|discriminate].
  apply shift_Some_size in Hx.
  destruct it as [o|c].
  - by injection H as <- <- <-.
  - inv_bind H. destruct x as [task' s3]. injection H as <- <- <-.
    enough (heap_size (heap s3) <= heap_size (heap s1)) by lia.
    revert Hx0.
    apply (addChoice_inv
      (fun s s' => heap_size (heap s') <= heap_size (heap s))).
    + intros; lia.
    + apply chainTasks_size.
    + done.
Qed.

Lemma chainTasks_returns fuel a first s :
  heap_size (heap s) < fuel -> chainTasks fuel a first s <> OutOfFuel.
Proof.
  revert a first s.
  induction fuel as [|fuel IH]; intros a first s Hs; [lia|].
  simpl. unfold chainTasks_body. apply bind_not_OutOfFuel.
  - apply (chainTasks_task_returns _ fuel); [auto|apply chainTasks_size|lia].
  - intros [[task first'] s2] Hhead. simpl.
    apply chainTasks_task_size in Hhead.
    apply bind_not_OutOfFuel; [apply array_length_not_OutOfFuel|].
    intros len _. case_decide as Hlen; [done|].
    apply bind_not_OutOfFuel; [apply IH; lia|].
    by intros [rest s3] _.
Qed.

(** ** More fuel does not change an outcome *)

Section more_fuel.

Variables rec rec' : loc -> bool -> St -> result (Chain * St).
Hypothesis rec_mono : forall a f s,
  rec a f s <> OutOfFuel -> rec' a f s = rec a f s.

Lemma addChoice_loop_mono choice first todo res s :
  addChoice_loop rec choice first todo res s <> OutOfFuel ->
  addChoice_loop rec' choice first todo res s =
  addChoice_loop rec choice first todo res s.
Proof.
  revert res s. induction todo as [|choiceObj todo IH]; intros res s H.
  - done.
  - simpl in *. destruct (functions choiceObj) as [fs|]; [simpl in *|done].
    destruct (has_endStates fs);
      [destruct (defaultFunctions choice); [done|by apply IH]|].
    destruct (defaultFunctions choice) as [d|]; [|done].
    rewrite rec_mono.
    + destruct (rec d first s) as [[c s1]| |]; [simpl in *|done|done].
      by apply IH.
    + by destruct (rec d first s).
Qed.

Lemma addChoice_mono choice first s :
  addChoice rec choice first s <> OutOfFuel ->
  addChoice rec' choice first s = addChoice rec choice first s.
Proof.
  unfold addChoice. case_decide as Hlen; [done|]. intros H.
  apply bind_OutOfFuel_inv in H. by rewrite addChoice_loop_mono.
Qed.

Lemma chainTasks_body_mono a first s :
  chainTasks_body rec a first s <> OutOfFuel ->
  chainTasks_body rec' a first s = chainTasks_body rec a first s.
Proof.
  unfold chainTasks_body, chainTasks_task. intros H.
  destruct (shift a s) as [[sfnObject s1]| |]; [simpl in *|done|done].
  destruct sfnObject as [[o|c]|]; [| |done]; simpl in *.
  - destruct (array_length a _) as [len| |]; [simpl in *|done|done].
    case_decide as Hlen; [done|].
    apply bind_OutOfFuel_inv in H. by rewrite rec_mono.
  - rewrite addChoice_mono by (by do 2 apply bind_OutOfFuel_inv in H).
    destruct (addChoice rec c first s1) as [[task s2]| |];
      [simpl in *|done|done].
    destruct (array_length a s2) as [len| |]; [simpl in *|done|done].
    case_decide as Hlen; [done|].
    apply bind_OutOfFuel_inv in H. by rewrite rec_mono.
Qed.

End more_fuel.

Lemma chainTasks_mono fuel fuel' a first s :
  fuel <= fuel' -> chainTasks fuel a first s <> OutOfFuel ->
  chainTasks fuel' a first s = chainTasks fuel a first s.
Proof.
  revert fuel' a first s.
  induction fuel as [|fuel IH]; intros fuel' a first s Hle H; [done|].
  destruct fuel' as [|fuel']; [lia|]. simpl in *.
  apply chainTasks_body_mono; [|done].
  intros; apply IH; [lia|done].
Qed.

Lemma constructor_mono fuel fuel' id props s :
  fuel <= fuel' -> constructor fuel id props s <> OutOfFuel ->
  constructor fuel' id props s = constructor fuel id props s.
Proof.
  intros Hle H. unfold constructor in *.
  destruct (array_length (lambdaFunctions props) s) as [len| |];
    [simpl in *|done|done].
  case_decide as Hlen; [done|].
  apply bind_OutOfFuel_inv in H. by rewrite (chainTasks_mono fuel fuel').
Qed.

(** ** What a call registers *)

Lemma built_from_builds s s' added k :
  builds s s' added -> built_from s' k -> built_from s k.
Proof.
  intros (_ & _ & Hheap) Hk.
  assert (forall a arr' it, heap s' !! a = Some arr' -> it ∈ arr' ->
            exists arr, heap s !! a = Some arr /\ it ∈ arr) as Hback.
  { intros a arr' it Ha Hit. specialize (Hheap a).
    destruct (heap s !! a) as [arr|]; [|congruence].
    destruct Hheap as (used & arr'' & Ha' & -> & _).
    exists (used ++ arr''). split; [done|].
    rewrite Ha in Ha'. injection Ha' as <-.
    apply elem_of_app. by right. }
  destruct k as [t|n| | |]; simpl in *; try done.
  - destruct Hk as (a & arr' & o & first & Ha & Ho & ->).
    destruct (Hback _ _ _ Ha Ho) as (arr & ? & ?). by exists a, arr, o, first.
  - destruct Hk as (a & arr' & c & Ha & Hc & ->).
    destruct (Hback _ _ _ Ha Hc) as (arr & ? & ?). by exists a, arr, c.
Qed.

Lemma builds_trans s1 s2 s3 added1 added2 :
  builds s1 s2 added1 -> builds s2 s3 added2 ->
  builds s1 s3 (added1 ++ added2).
Proof.
  intros H12 H23.
  pose proof H12 as (Hc1 & Hb1 & Hh1).
  destruct H23 as (Hc2 & Hb2 & Hh2).
  split; [|split].
  - by rewrite Hc2, Hc1, (assoc_L (++)).
  - apply Forall_app. split; [done|].
    eapply Forall_impl; [exact Hb2|]. intros k.
    by apply (built_from_builds s1 s2 added1).
  - intros a. specialize (Hh1 a). specialize (Hh2 a).
    destruct (heap s1 !! a) as [arr|].
    + destruct Hh1 as (used1 & arr2 & Ha2 & -> & Hu1). rewrite Ha2 in Hh2.
      destruct Hh2 as (used2 & arr3 & Ha3 & -> & Hu2).
      exists (used1 ++ used2), arr3. split; [done|].
      split; [by rewrite (assoc_L (++))|].
      intros o [Ho|Ho]%elem_of_app.
      * destruct (Hu1 o Ho) as [first ?]. exists first.
        apply elem_of_app. by left.
      * destruct (Hu2 o Ho) as [first ?]. exists first.
        apply elem_of_app. by right.
    + by rewrite Hh1 in Hh2.
Qed.

Lemma shift_builds a s it s1 k :
  shift a s = Ok (Some it, s1) ->
  built_from s k ->
  (forall o, it = ItObject o -> exists first, k = KLambda (lambdaTask o first)) ->
  builds s (new k s1) [k].
Proof.
  intros (arr & Ha & Hhd & ->)%shift_Ok Hk Hit.
  destruct arr as [|it' rest]; [discriminate|]. injection Hhd as <-.
  split; [done|]. split; [by apply Forall_singleton|].
  intros b. simpl. destruct (decide (a = b)) as [<-|Hne].
  - rewrite Ha, lookup_insert_eq. exists [it], rest. split; [done|].
    split; [done|]. intros o Ho%list_elem_of_singleton.
    destruct (Hit o (eq_sym Ho)) as [first ->]. exists first.
    by apply list_elem_of_singleton.
  - rewrite lookup_insert_ne by done.
    destruct (heap s !! b) as [arr|]; [|done].
    exists [], arr. split; [done|]. split; [done|].
    by intros o Ho%elem_of_nil.
Qed.

Lemma chainTasks_builds fuel a first s chain s' :
  chainTasks fuel a first s = Ok (chain, s') -> exists added, builds s s' added.
Proof.
  apply (chainTasks_inv (fun s s' => exists added, builds s s' added)).
  - intros s1 s2 s3 [added1 H1] [added2 H2]. exists (added1 ++ added2).
    by apply (builds_trans s1 s2 s3).
  - intros b s0 o s1 f H. eexists. eapply shift_builds; [exact H| |].
    + apply shift_Ok in H as (arr & Hb & Hhd & _).
      destruct arr as [|? rest]; [discriminate|]. injection Hhd as <-.
      exists b, (ItObject o :: rest), o, f. split; [done|].
      split; [apply list_elem_of_here|done].
    + intros o' [= <-]. by exists f.
  - intros b s0 c s1 H. eexists. eapply shift_builds; [exact H| |done].
    apply shift_Ok in H as (arr & Hb & Hhd & _).
    destruct arr as [|? rest]; [discriminate|]. injection Hhd as <-.
    exists b, (ItChoice c :: rest), c. split; [done|].
    split; [apply list_elem_of_here|done].
Qed.

(** ** The outcome depends on the reachable arrays only *)

Section frame.

Variable R : gset loc.

Lemma alike_bind {A B} (m1 m2 : result (A * St))
    (k1 k2 : A * St -> result (B * St)) :
  alike R m1 m2 ->
  (forall x s1 s2, closed R s1 -> agree R s1 s2 ->
     alike R (k1 (x, s1)) (k2 (x, s2))) ->
  alike R (m1 ≫= k1) (m2 ≫= k2).
Proof.
  destruct m1 as [[x1 s1]| |], m2 as [[x2 s2]| |]; simpl; try done.
  intros (-> & ? & ?) Hk. by apply Hk.
Qed.

Lemma closed_shift a s arr :
  heap s !! a = Some arr -> closed R s ->
  closed R (set_heap (<[a := tail arr]> (heap s)) s).
Proof.
  intros Ha Hcl b arr' c d Hb Hlook Hc Hd. simpl in Hlook.
  destruct (decide (a = b)) as [<-|Hne].
  - rewrite lookup_insert_eq in Hlook. injection Hlook as <-.
    apply (Hcl a arr c d); [done..| |done].
    destruct arr; [done|]. by apply list_elem_of_further.
  - rewrite lookup_insert_ne in Hlook by done. by apply (Hcl b arr' c d).
Qed.

Lemma agree_shift a s1 s2 arr :
  agree R s1 s2 ->
  agree R (set_heap (<[a := tail arr]> (heap s1)) s1)
          (set_heap (<[a := tail arr]> (heap s2)) s2).
Proof.
  intros Hag b Hb. simpl. destruct (decide (a = b)) as [<-|Hne].
  - by rewrite !lookup_insert_eq.
  - rewrite !lookup_insert_ne by done. by apply Hag.
Qed.

Section body_frame.

Variable rec : loc -> bool -> St -> result (Chain * St).
Hypothesis rec_frame : forall a first s1 s2,
  a ∈ R -> closed R s1 -> agree R s1 s2 ->
  alike R (rec a first s1) (rec a first s2).

Lemma addChoice_loop_frame choice first todo res s1 s2 :
  (forall d, defaultFunctions choice = FArray d -> d ∈ R) ->
  closed R s1 -> agree R s1 s2 ->
  alike R (addChoice_loop rec choice first todo res s1)
          (addChoice_loop rec choice first todo res s2).
Proof.
  intros Hd. revert res s1 s2.
  induction todo as [|choiceObj todo IH]; intros res s1 s2 Hcl Hag.
  - done.
  - simpl. destruct (functions choiceObj) as [fs|]; [simpl|done].
    apply alike_bind; [|intros; by apply IH].
    destruct (has_endStates fs); [by destruct (defaultFunctions choice)|].
    destruct (defaultFunctions choice) as [d|]; [|done].
    apply alike_bind; [apply rec_frame; auto|].
    by intros c s1' s2' ? ?.
Qed.

Lemma addChoice_frame choice first s1 s2 :
  (forall d, defaultFunctions choice = FArray d -> d ∈ R) ->
  closed R s1 -> agree R s1 s2 ->
  alike R (addChoice rec choice first s1) (addChoice rec choice first s2).
Proof.
  intros Hd Hcl Hag. unfold addChoice. case_decide as Hlen; [done|].
  apply alike_bind; [by apply addChoice_loop_frame|].
  by intros whens s1' s2' ? ?.
Qed.

Lemma chainTasks_body_frame a first s1 s2 :
  a ∈ R -> closed R s1 -> agree R s1 s2 ->
  alike R (chainTasks_body rec a first s1) (chainTasks_body rec a first s2).
Proof.
  intros Ha Hcl Hag. unfold chainTasks_body.
  apply alike_bind.
  - unfold chainTasks_task, shift. rewrite <- (Hag a Ha).
    destruct (heap s1 !! a) as [arr|] eqn:Harr; [simpl|done].
    pose proof (closed_shift a s1 arr Harr Hcl) as Hcl'.
    pose proof (agree_shift a s1 s2 arr Hag) as Hag'.
    destruct arr as [|[o|c] rest]; simpl; [done|done|].
    apply alike_bind; [|by intros task s1' s2' ? ?].
    apply addChoice_frame; [|done..].
    intros d Hd. apply (Hcl a (ItChoice c :: rest) c d); [done..| |done].
    apply list_elem_of_here.
  - intros [task first'] s1' s2' Hcl1 Hag1. simpl.
    unfold array_length. rewrite <- (Hag1 a Ha).
    destruct (heap s1' !! a) as [arr'|]; [simpl|done].
    case_decide as Hlen; [done|].
    apply alike_bind; [by apply rec_frame|].
    by intros rest s1'' s2'' ? ?.
Qed.

End body_frame.

Lemma chainTasks_frame fuel a first s1 s2 :
  a ∈ R -> closed R s1 -> agree R s1 s2 ->
  alike R (chainTasks fuel a first s1) (chainTasks fuel a first s2).
Proof.
  revert a first s1 s2.
  induction fuel as [|fuel IH]; intros a first s1 s2 Ha Hcl Hag; [done|].
  simpl. by apply chainTasks_body_frame.
Qed.

Lemma constructor_frame fuel id props s1 s2 :
  lambdaFunctions props ∈ R -> closed R s1 -> agree R s1 s2 ->
  alike R (constructor fuel id props s1) (constructor fuel id props s2).
Proof.
  intros Ha Hcl Hag. unfold constructor, array_length.
  rewrite <- (Hag _ Ha).
  destruct (heap s1 !! lambdaFunctions props) as [arr|]; [simpl|done].
  case_decide as Hlen; [done|].
  apply alike_bind; [by apply chainTasks_frame|].
  intros chain s1' s2' Hcl' Hag'. simpl.
  by destruct (errorHandler props).
Qed.

End frame.

(** ** Lists of task descriptors

    On a list without a choice the code of the class throws nothing: the
    chain is the one of the tasks in the order of the list, the first one
    built with [first] and the others with ['$.Payload'], registered in
    that order (the checks of the library aside, see the head of the
    file). *)

Lemma chainTasks_plain os : forall fuel a first s o,
  heap s !! a = Some (ItObject <$> o :: os) ->
  length os < fuel ->
  exists s',
    chainTasks fuel a first s = Ok (task_chain first o os, s') /\
    heap s' = <[a := []]> (heap s) /\
    children s' =
      children s ++
        KLambda (lambdaTask o first) ::
        ((fun o => KLambda (lambdaTask o false)) <$> os).
Proof.
  induction os as [|o' os IH]; intros fuel a first s o Ha Hfuel;
    (destruct fuel as [|fuel]; [simpl in Hfuel; lia|]);
    simpl; unfold chainTasks_body, chainTasks_task, shift, array_length;
    rewrite Ha; simpl; rewrite lookup_insert_eq; simpl.
  - eexists. split; [reflexivity|]. by simpl.
  - match goal with
    | |- context [chainTasks fuel a false ?s1] =>
        destruct (IH fuel a false s1 o') as (s' & Hrun & Hheap & Hch)
    end.
    { simpl. by rewrite lookup_insert_eq. }
    { simpl in Hfuel. lia. }
    rewrite Hrun. simpl. exists s'. split; [done|]. split.
    + rewrite Hheap. simpl. by rewrite insert_insert_eq.
    + rewrite Hch. simpl. by rewrite <- (assoc_L (++)).
Qed.

(** * The claims *)

(** ** C1: the chain has the descriptors in their order *)

(** C1, the code departs from the claim.  The claim promises a chain with
    the descriptors in their order for every non-empty list.  The list that
    holds the one choice [two_branches] is non-empty, and [chainTasks] throws
    a [TypeError] on it, with any fuel that lets the calls run: no chain is
    built. *)
Theorem chainTasks_two_branch_choice_throws :
  heap two_branch_choice !! 1%positive = Some [ItChoice two_branches] /\
  forall fuel, chainTasks (2 + fuel) 1 true two_branch_choice = TypeError.
Proof.
  split; [reflexivity|]. intros fuel.
  rewrite (chainTasks_mono 2 (2 + fuel)); [reflexivity|lia|].
  vm_compute. discriminate.
Qed.

(** ** C2: the input path of the Lambda tasks *)

(** C2, the code departs from the claim.  The claim gives ['$.Payload'] to
    every Lambda task built after another one.  On the list [[one_branch,
    g]] the task [h] of the choice is built first, [g] after it, and both
    are built with no input path: [first] is still [true] when [chainTasks]
    comes back from [addChoice]. *)
Theorem chainTasks_task_after_choice_no_inputPath :
  forall fuel, exists chain s',
    chainTasks (2 + fuel) 1 true choice_then_task = Ok (chain, s') /\
    children s' =
      [ KChoice "route";
        KLambda {| id := "h"; lambdaFunction := "arn:aws:lambda:h";
                   inputPath := None; retryOnServiceExceptions := false;
                   retries := [] |};
        KLambda {| id := "g"; lambdaFunction := "arn:aws:lambda:g";
                   inputPath := None; retryOnServiceExceptions := false;
                   retries := [] |} ].
Proof.
  intros fuel.
  rewrite (chainTasks_mono 2 (2 + fuel)); [|lia|vm_compute; discriminate].
  vm_compute. eauto.
Qed.

(** ** C3: the branches of a choice *)

(** C3, the code departs from the claim.  The claim builds the body of a
    branch from the entry's own [functions].  For [one_branch], whose entry
    has the functions [[f]] (array 3) and whose [defaultFunctions] are [[h]]
    (array 2), the body of the branch is the task [h]; the array of [f] is
    not read, and no task is built for [f]. *)
Theorem addChoice_branch_from_defaultFunctions :
  forall fuel, exists s',
    addChoice (chainTasks (1 + fuel)) one_branch true
      (store [ (2%positive, [ItObject (task "h")]);
               (3%positive, [ItObject (task "f")]) ]) =
    Ok (CAfterwards "route"
          [ ("isA", BChain (CTask (lambdaTask (task "h") true))) ], s') /\
    heap s' !! 2%positive = Some [] /\
    heap s' !! 3%positive = Some [ItObject (task "f")] /\
    children s' = [ KChoice "route"; KLambda (lambdaTask (task "h") true) ].
Proof.
  intros fuel.
  rewrite (addChoice_mono (chainTasks 1) (chainTasks (1 + fuel))).
  - vm_compute. eauto.
  - intros a f s H. apply chainTasks_mono; [lia|done].
  - vm_compute. discriminate.
Qed.

(** ** C4: no descriptor is [undefined] *)

Section second_branch.

Variable fuel : nat.
Variable choice : ISfnChoice.
Variable first : bool.

(** Once the array of [defaultFunctions] is empty, the next entry that
    calls [chainTasks] shifts [undefined]. *)
Lemma addChoice_loop_emptied_throws d todo res s :
  defaultFunctions choice = FArray d ->
  heap s !! d = Some [] ->
  1 <= length (List.filter builds_chain todo) ->
  addChoice_loop (chainTasks (S fuel)) choice first todo res s = TypeError.
Proof.
  intros Hd. remember (chainTasks (S fuel)) as rec eqn:Hrec. revert res s.
  induction todo as [|choiceObj todo IH]; intros res s Hs Hn;
    simpl in Hn |- *; [lia|].
  unfold builds_chain at 1 in Hn.
  destruct (functions choiceObj) as [fs|]; [simpl|done].
  destruct (has_endStates fs); simpl in Hn |- *; [by rewrite Hd|].
  rewrite Hd. subst rec. by rewrite chainTasks_empty_throws.
Qed.

Lemma addChoice_loop_two_chains_throws todo res s :
  heap_size (heap s) <= fuel ->
  2 <= length (List.filter builds_chain todo) ->
  addChoice_loop (chainTasks (S fuel)) choice first todo res s = TypeError.
Proof.
  pose proof addChoice_loop_emptied_throws as Hemptied.
  remember (chainTasks (S fuel)) as rec eqn:Hrec. revert res s.
  induction todo as [|choiceObj todo IH]; intros res s Hs Hn;
    simpl in Hn |- *; [lia|].
  unfold builds_chain at 1 in Hn.
  destruct (functions choiceObj) as [fs|]; [simpl|done].
  destruct (has_endStates fs); simpl in Hn |- *;
    [destruct (defaultFunctions choice); [done|by apply IH]|].
  destruct (defaultFunctions choice) as [d|] eqn:Hd; [|done].
  destruct (rec d first s) as [[c s1]| |] eqn:Hcall; simpl.
  - apply (Hemptied d); [done| |lia].
    subst rec. by apply chainTasks_emptied in Hcall.
  - done.
  - exfalso. subst rec. revert Hcall. apply chainTasks_returns. lia.
Qed.

End second_branch.

(** C4, the code departs from the claim.  The claim has the read of a field
    of [undefined] unreachable, choices with two or more branches included.
    For every choice with at least two entries whose [functions] are
    arrays, [addChoice] throws the [TypeError] of that read, given the fuel
    to run: each branch is built
    from the one array [defaultFunctions], the first branch empties it and
    the second one shifts [undefined] from it. *)
Theorem addChoice_two_chains_throws fuel choice first s :
  2 <= length (List.filter builds_chain (choices choice)) ->
  heap_size (heap s) <= fuel ->
  addChoice (chainTasks (S fuel)) choice first s = TypeError.
Proof.
  intros Hn Hs. unfold addChoice. case_decide as Hlen.
  - apply nil_length_inv in Hlen. rewrite Hlen in Hn. simpl in Hn. lia.
  - by rewrite addChoice_loop_two_chains_throws.
Qed.

Lemma addChoice_two_chains_throws_witness :
  2 <= length (List.filter builds_chain (choices two_branches)) /\
  heap_size (heap two_branch_choice) <= 4 /\
  addChoice (chainTasks 5) two_branches true two_branch_choice = TypeError.
Proof.
  split; [vm_compute; lia|]. split; [vm_compute; lia|].
  apply (addChoice_two_chains_throws 4 two_branches true two_branch_choice);
    vm_compute; lia.
Defined.

(** ** C5: the catch of the workflow *)

(** C5, counterexample.  With the empty list of tasks and an error handler
    the constructor returns at its guard: no state machine, no parallel
    state to attach a catch to, no Lambda task for the handler; the store is
    as before. *)
Lemma constructor_empty_list_no_catch :
  errorHandler {| lambdaFunctions := 1; errorHandler := Some onError;
                  stateMachineName := "workflow" |} = Some onError /\
  (forall fuel,
     constructor fuel "wf"
       {| lambdaFunctions := 1; errorHandler := Some onError;
          stateMachineName := "workflow" |} no_task = Ok (None, no_task)) /\
  ~ exists fuel machine s',
      constructor fuel "wf"
        {| lambdaFunctions := 1; errorHandler := Some onError;
           stateMachineName := "workflow" |} no_task = Ok (Some machine, s') /\
      length (catches (definition machine)) = 1.
Proof.
  split; [reflexivity|]. split; [by intros fuel|].
  intros (fuel & machine & s' & H & _). discriminate.
Qed.

(** C5, as amended.  When the construction returns a state machine, the
    list of tasks was not empty, its chain was built and is the one branch
    of the definition, and the definition has exactly one catch when the
    props have an error handler (the handler's function, the handler's
    errors, the result path ['$.error'], one Lambda task registered for it,
    after the tasks of the chain) and no catch and no such task when they
    have none. *)
Theorem constructor_catch fuel id props s machine s' :
  constructor fuel id props s = Ok (Some machine, s') ->
  exists chain s1 handlers,
    chainTasks fuel (lambdaFunctions props) true
      (new (KParallel ("paralle-" +:+ id)) s) = Ok (chain, s1) /\
    heap s' = heap s1 /\
    children s' =
      children s1 ++ handlers ++
        [KLogGroup (logsDestination machine); KStateMachine machine] /\
    branches (definition machine) = [chain] /\
    match errorHandler props with
    | Some h =>
        let handler :=
          {| id := handlerName h; lambdaFunction := handlerFunction h;
             inputPath := None; retryOnServiceExceptions := false;
             retries := [] |} in
        handlers = [KLambda handler] /\
        catches (definition machine) =
          [ {| catchHandler := handler; catchErrors := handlerErrors h;
               resultPath := "$.error" |} ]
    | None => handlers = [] /\ catches (definition machine) = []
    end.
Proof.
  intros H. unfold constructor in H. inv_bind H.
  case_decide as Hlen; [discriminate|].
  inv_bind H. destruct x0 as [chain s1]. exists chain, s1.
  destruct (errorHandler props) as [h|]; injection H as <- <-; simpl.
  - eexists. split; [done|]. split; [done|]. split; [|done].
    by rewrite <- !(assoc_L (++)).
  - exists []. split; [done|]. split; [done|]. split; [|done].
    by rewrite <- !(assoc_L (++)).
Qed.

Lemma constructor_catch_witness :
  exists machine s' chain s1 handlers,
    constructor 3 "wf"
      {| lambdaFunctions := 1; errorHandler := Some onError;
         stateMachineName := "workflow" |} two_tasks =
      Ok (Some machine, s') /\
    chainTasks 3 1 true (new (KParallel ("paralle-" +:+ "wf")) two_tasks) =
      Ok (chain, s1) /\
    heap s' = heap s1 /\
    children s' =
      children s1 ++ handlers ++
        [KLogGroup (logsDestination machine); KStateMachine machine] /\
    branches (definition machine) = [chain] /\
    handlers =
      [KLambda {| id := "onError"; lambdaFunction := "arn:aws:lambda:onError";
                  inputPath := None; retryOnServiceExceptions := false;
                  retries := [] |}] /\
    catches (definition machine) =
      [ {| catchHandler :=
             {| id := "onError"; lambdaFunction := "arn:aws:lambda:onError";
                inputPath := None; retryOnServiceExceptions := false;
                retries := [] |};
           catchErrors := ["States.ALL"];
           resultPath := "$.error" |} ].
Proof.
  destruct (constructor 3 "wf"
              {| lambdaFunctions := 1; errorHandler := Some onError;
                 stateMachineName := "workflow" |} two_tasks)
    as [[[machine|] s']| |] eqn:Hrun; [|vm_compute in Hrun; discriminate..].
  destruct (constructor_catch 3 "wf" _ two_tasks machine s' Hrun)
    as (chain & s1 & handlers & Hchain & Hheap & Hch & Hbr & Hh & Hcatch).
  by exists machine, s', chain, s1, handlers.
Defined.

(** ** C6: the retry policy of a task *)

Lemma lambdaTask_retries o first :
  id (lambdaTask o first) = name o /\
  lambdaFunction (lambdaTask o first) = function o /\
  retries (lambdaTask o first) =
    match Types.config o with
    | Some c =>
        [ {| interval := retryInterval c; maxAttempts := retryAttempts c;
             retryErrors := errors c |} ]
    | None => []
    end.
Proof. unfold lambdaTask. by destruct (Types.config o). Qed.



(** ** C7: termination *)

(** C7, counterexample.  On the list [[one_branch]], one descriptor long,
    the call of [chainTasks] that [addChoice] makes at line 131 receives the
    array [defaultFunctions] of the choice, two descriptors long: what
    [chainTasks] does on lists that are not shorter than the caller's
    decides the outcome.  And the translation is no total function: on the
    empty list it throws. *)
Lemma chainTasks_call_on_longer_list :
  length (heap longer_branch !!! 1%positive) = 1 /\
  length (heap longer_branch !!! 2%positive) = 2 /\
  ~ calls_on_shorter_lists 1 true longer_branch /\
  (forall fuel, chainTasks (S fuel) 1 true no_task = TypeError).
Proof.
  split; [reflexivity|]. split; [reflexivity|]. split; [|done].
  intros H.
  specialize (H (fun _ _ _ => TypeError)
                (fun a' _ s' =>
                   if decide (length (heap s' !!! a') < 1)
                   then TypeError else OutOfFuel)).
  assert (OutOfFuel = @TypeError (Chain * St)) as Hne; [|discriminate].
  apply H. intros a' first' s' Hlt.
  change (length (heap longer_branch !!! 1%positive)) with 1 in Hlt.
  by case_decide.
Qed.

Section smaller_store.

Variables rec rec' : loc -> bool -> St -> result (Chain * St).
Variable bound : nat.
Hypothesis rec_size : forall a f s c s',
  rec a f s = Ok (c, s') -> heap_size (heap s') <= heap_size (heap s).
Hypothesis rec_same : forall a f s,
  heap_size (heap s) < bound -> rec' a f s = rec a f s.

Lemma addChoice_loop_smaller choice first todo res s :
  heap_size (heap s) < bound ->
  addChoice_loop rec' choice first todo res s =
  addChoice_loop rec choice first todo res s.
Proof.
  revert res s. induction todo as [|choiceObj todo IH]; intros res s Hs; [done|].
  simpl. destruct (functions choiceObj) as [fs|]; [simpl|done].
  destruct (has_endStates fs).
  - destruct (defaultFunctions choice); [done|]. by apply IH.
  - destruct (defaultFunctions choice) as [d|]; [|done].
    rewrite rec_same by done.
    destruct (rec d first s) as [[c s1]| |] eqn:Hcall; [simpl|done|done].
    apply IH. apply rec_size in Hcall. lia.
Qed.

Lemma addChoice_smaller choice first s :
  heap_size (heap s) < bound ->
  addChoice rec' choice first s = addChoice rec choice first s.
Proof.
  intros Hs. unfold addChoice. case_decide as Hlen; [done|].
  by rewrite addChoice_loop_smaller.
Qed.

Lemma chainTasks_body_smaller a first s :
  heap_size (heap s) <= bound ->
  chainTasks_body rec' a first s = chainTasks_body rec a first s.
Proof.
  intros Hs. unfold chainTasks_body, chainTasks_task.
  destruct (shift a s) as [[sfnObject s1]| |] eqn:Hshift; [simpl|done|done].
  destruct sfnObject as [it|]; [|done].
  apply shift_Some_size in Hshift. destruct it as [o|c]; simpl.
  - destruct (array_length a _) as [len| |]; [simpl|done|done].
    case_decide as Hlen; [done|]. rewrite rec_same; [done|simpl; lia].
  - rewrite addChoice_smaller by lia.
    destruct (addChoice rec c first s1) as [[task s2]| |] eqn:Hc;
      [simpl|done|done].
    assert (heap_size (heap s2) <= heap_size (heap s1)) as Hs2.
    { revert Hc.
      apply (addChoice_inv
        (fun s s' => heap_size (heap s') <= heap_size (heap s))).
      - intros; lia.
      - apply rec_size.
      - done. }
    destruct (array_length a s2) as [len| |]; [simpl|done|done].
    case_decide as Hlen; [done|]. rewrite rec_same; [done|lia].
Qed.

End smaller_store.

(** C7, as amended.  [chainTasks] terminates on every store and list: with
    a depth of calls above the number of descriptors in the store the call
    returns a chain or throws, and more depth gives the same outcome.  The
    call at line 108 gets the array of its caller with at least one
    descriptor less, the one taken by [shift]; a call made through
    [addChoice] gets the array [defaultFunctions] of the choice, whatever
    its length; and every call made from the body of a call is on a store
    that holds fewer descriptors than the store of that call: what
    [chainTasks] does on the stores that are not smaller has no part in the
    outcome. *)
Theorem chainTasks_terminates a first s :
  chainTasks (S (heap_size (heap s))) a first s <> OutOfFuel /\
  (forall fuel, heap_size (heap s) < fuel ->
     chainTasks fuel a first s =
     chainTasks (S (heap_size (heap s))) a first s) /\
  (forall fuel arr task first' s',
     heap s !! a = Some arr ->
     chainTasks_task (chainTasks fuel) a first s = Ok (task, first', s') ->
     exists arr', heap s' !! a = Some arr' /\ length arr' < length arr) /\
  (forall rec rec' : loc -> bool -> St -> result (Chain * St),
     (forall a' first' s0 c s0',
        rec a' first' s0 = Ok (c, s0') ->
        heap_size (heap s0') <= heap_size (heap s0)) ->
     (forall a' first' s',
        heap_size (heap s') < heap_size (heap s) ->
        rec' a' first' s' = rec a' first' s') ->
     chainTasks_body rec' a first s = chainTasks_body rec a first s).
Proof.
  assert (chainTasks (S (heap_size (heap s))) a first s <> OutOfFuel) as Hret.
  { apply chainTasks_returns. lia. }
  split; [done|]. split; [|split].
  - intros fuel Hfuel. apply chainTasks_mono; [lia|done].
  - intros fuel arr task first' s'. apply chainTasks_task_shorter.
  - intros rec rec' Hsize Hsame.
    by apply (chainTasks_body_smaller rec rec' (heap_size (heap s))).
Qed.

(** ** C8: the outcome depends on the input only *)

(** C8, counterexample.  Two runs on the same list of descriptors do not
    give the same result: the first construction from the props builds the
    state machine and empties [props.lambdaFunctions], the second
    construction from the same props finds the list empty and builds none;
    and a second run of [chainTasks] on the list throws. *)
Lemma constructor_second_run_differs :
  exists machine s',
    constructor 3 "wf"
      {| lambdaFunctions := 1; errorHandler := None;
         stateMachineName := "workflow" |} two_tasks = Ok (Some machine, s') /\
    constructor 3 "wf2"
      {| lambdaFunctions := 1; errorHandler := None;
         stateMachineName := "workflow" |} s' = Ok (None, s') /\
    exists chain s1,
      chainTasks 3 1 true two_tasks = Ok (chain, s1) /\
      chainTasks 3 1 true s1 = TypeError.
Proof.
  vm_compute. eexists _, _. split; [reflexivity|]. split; [reflexivity|].
  eexists _, _. split; reflexivity.
Qed.

(** C8, as amended.  Two runs that start with equal descriptors and both
    return, return the same: when two stores hold the same arrays at the
    locations a run can reach ([R], closed) as the runs start, two runs of
    [chainTasks] that return give the same chain, and two runs of the
    constructor that return give the same state machine, whatever else the
    stores hold and whatever depth of calls each run has. *)
Theorem synthesis_deterministic (R : gset loc) s1 s2 :
  closed R s1 -> agree R s1 s2 ->
  (forall fuel1 fuel2 a first chain1 s1' chain2 s2',
     a ∈ R ->
     chainTasks fuel1 a first s1 = Ok (chain1, s1') ->
     chainTasks fuel2 a first s2 = Ok (chain2, s2') ->
     chain1 = chain2 /\ agree R s1' s2') /\
  (forall fuel1 fuel2 id props r1 s1' r2 s2',
     lambdaFunctions props ∈ R ->
     constructor fuel1 id props s1 = Ok (r1, s1') ->
     constructor fuel2 id props s2 = Ok (r2, s2') ->
     r1 = r2 /\ agree R s1' s2').
Proof.
  intros Hcl Hag. split.
  - intros fuel1 fuel2 a first chain1 s1' chain2 s2' Ha H1 H2.
    pose proof (chainTasks_frame R (fuel1 `max` fuel2) a first s1 s2
                  Ha Hcl Hag) as Hframe.
    rewrite (chainTasks_mono fuel1), H1 in Hframe by (lia || by rewrite H1).
    rewrite (chainTasks_mono fuel2), H2 in Hframe by (lia || by rewrite H2).
    by destruct Hframe as (-> & _ & ?).
  - intros fuel1 fuel2 id props r1 s1' r2 s2' Ha H1 H2.
    pose proof (constructor_frame R (fuel1 `max` fuel2) id props s1 s2
                  Ha Hcl Hag) as Hframe.
    rewrite (constructor_mono fuel1), H1 in Hframe by (lia || by rewrite H1).
    rewrite (constructor_mono fuel2), H2 in Hframe by (lia || by rewrite H2).
    by destruct Hframe as (-> & _ & ?).
Qed.

Lemma synthesis_deterministic_witness :
  exists chain1 s1' chain2 s2',
    closed {[1%positive]} two_tasks /\
    agree {[1%positive]} two_tasks two_tasks_elsewhere /\
    chainTasks 3 1 true two_tasks = Ok (chain1, s1') /\
    chainTasks 7 1 true two_tasks_elsewhere = Ok (chain2, s2') /\
    chain1 = chain2 /\ agree {[1%positive]} s1' s2'.
Proof.
  assert (closed {[1%positive]} two_tasks) as Hcl.
  { intros a arr c d ->%elem_of_singleton Ha Hc _.
    vm_compute in Ha. injection Ha as <-.
    apply elem_of_cons in Hc as [Hc|Hc]; [discriminate|].
    apply elem_of_cons in Hc as [Hc|Hc]; [discriminate|].
    by apply elem_of_nil in Hc. }
  assert (agree {[1%positive]} two_tasks two_tasks_elsewhere) as Hag.
  { intros a ->%elem_of_singleton. reflexivity. }
  destruct (chainTasks 3 1 true two_tasks) as [[chain1 s1']| |] eqn:Hrun1;
    [|vm_compute in Hrun1; discriminate..].
  destruct (chainTasks 7 1 true two_tasks_elsewhere) as [[chain2 s2']| |]
    eqn:Hrun2; [|vm_compute in Hrun2; discriminate..].
  exists chain1, s1', chain2, s2'.
  split; [done|]. split; [done|]. split; [done|]. split; [done|].
  apply (proj1 (synthesis_deterministic {[1%positive]} _ _ Hcl Hag)
           3 7 1%positive true chain1 s1' chain2 s2');
    [by apply elem_of_singleton|done|done].
Defined.

(** ** C9: the list is consumed *)

Lemma shrinks_refl s : shrinks s s.
Proof. intros a arr Ha. by exists arr. Qed.

Lemma addChoice_loop_empties fuel choice first d todo res s whens s' :
  defaultFunctions choice = FArray d ->
  (exists choiceObj, choiceObj ∈ todo /\ builds_chain choiceObj = true) ->
  addChoice_loop (chainTasks fuel) choice first todo res s = Ok (whens, s') ->
  heap s' !! d = Some [].
Proof.
  intros Hd. revert res s.
  induction todo as [|choiceObj todo IH]; intros res s (c & Hc & Hb) H.
  - by apply elem_of_nil in Hc.
  - simpl in H. inv_bind H. inv_bind H. destruct x0 as [next s1].
    destruct (functions choiceObj) as [fs|] eqn:Hfs; [|discriminate].
    injection Hx as <-.
    destruct (has_endStates fs) eqn:Hend.
    + rewrite Hd in Hx0. discriminate.
    + rewrite Hd in Hx0. inv_bind Hx0. destruct x as [chain s2].
      injection Hx0 as <- <-.
      apply chainTasks_emptied in Hx.
      assert (shrinks s2 s') as Hsh.
      { revert H. apply (addChoice_loop_inv shrinks).
        - apply shrinks_trans.
        - apply chainTasks_shrinks.
        - apply shrinks_refl. }
      destruct (Hsh d [] Hx) as (arr' & Hd' & Hsuf).
      by apply suffix_nil_inv in Hsuf as ->.
Qed.

(** C9.  A call of [chainTasks] that returns leaves the array it was given
    empty, and the array was not empty before: the caller's list is
    consumed.  So is the array [defaultFunctions] of a choice, once
    [addChoice] has built a branch from it. *)
Theorem chainTasks_consumes_input fuel first :
  (forall a s chain s',
     chainTasks fuel a first s = Ok (chain, s') ->
     heap s' !! a = Some [] /\
     exists it rest, heap s !! a = Some (it :: rest)) /\
  (forall choice d s task s',
     defaultFunctions choice = FArray d ->
     (exists choiceObj,
        choiceObj ∈ choices choice /\ builds_chain choiceObj = true) ->
     addChoice (chainTasks fuel) choice first s = Ok (task, s') ->
     heap s' !! d = Some []).
Proof.
  split.
  - intros a s chain s' H. split.
    + by apply chainTasks_emptied in H.
    + by apply chainTasks_nonempty in H.
  - intros choice d s task s' Hd Hex H. unfold addChoice in H.
    case_decide as Hlen.
    + apply nil_length_inv in Hlen. destruct Hex as (c & Hc & _).
      rewrite Hlen in Hc. by apply elem_of_nil in Hc.
    + inv_bind H. destruct x as [whens s1]. injection H as <- <-.
      by apply (addChoice_loop_empties _ _ _ _ _ _ _ _ _ Hd Hex Hx).
Qed.

Lemma chainTasks_consumes_input_witness :
  exists chain s',
    chainTasks 3 1 true choice_then_task = Ok (chain, s') /\
    heap choice_then_task !! 1%positive =
      Some [ItChoice one_branch; ItObject (task "g")] /\
    heap choice_then_task !! 2%positive = Some [ItObject (task "h")] /\
    heap s' !! 1%positive = Some [] /\
    heap s' !! 2%positive = Some [].
Proof.
  destruct (chainTasks 3 1 true choice_then_task) as [[chain s']| |] eqn:Hrun;
    [|vm_compute in Hrun; discriminate..].
  exists chain, s'. split; [done|]. split; [reflexivity|]. split; [reflexivity|].
  split.
  - by apply (proj1 (chainTasks_consumes_input 3 true) 1%positive
                choice_then_task chain s').
  - vm_compute in Hrun. injection Hrun as <- <-. reflexivity.
Defined.

(** ** C10: the empty list *)

(** C10.  With the empty list of tasks the constructor returns at once: the
    field [stateMachine] is left unset and the store is as it was, so the
    scope has no new child (no parallel state, no log group, no state
    machine). *)
Theorem constructor_empty fuel id props s :
  heap s !! lambdaFunctions props = Some [] ->
  constructor fuel id props s = Ok (None, s).
Proof.
  intros Ha. unfold constructor, array_length. by rewrite Ha.
Qed.

Lemma constructor_empty_witness :
  heap no_task !! 1%positive = Some [] /\
  constructor 0 "wf"
    {| lambdaFunctions := 1; errorHandler := None;
       stateMachineName := "workflow" |} no_task = Ok (None, no_task).
Proof.
  split; [reflexivity|].
  by apply (constructor_empty 0 "wf"
              {| lambdaFunctions := 1; errorHandler := None;
                 stateMachineName := "workflow" |} no_task).
Defined.

(** * Further properties of the class *)

(** ** Lists of task descriptors, run twice *)

Lemma chainTasks_plain_returned fuel a first s o os chain s' :
  heap s !! a = Some (ItObject <$> o :: os) ->
  chainTasks fuel a first s = Ok (chain, s') ->
  chain = task_chain first o os /\
  heap s' = <[a := []]> (heap s) /\
  children s' =
    children s ++
      KLambda (lambdaTask o first) ::
      ((fun o => KLambda (lambdaTask o false)) <$> os).
Proof.
  intros Ha H.
  destruct (chainTasks_plain os (S (length os)) a first s o Ha)
    as (s1 & Hrun & Hheap & Hch); [lia|].
  assert (chainTasks (fuel `max` S (length os)) a first s = Ok (chain, s'))
    as Hmax by (rewrite <- H; apply chainTasks_mono; [lia|by rewrite H]).
  rewrite (chainTasks_mono (S (length os))) in Hmax by (lia || by rewrite Hrun).
  rewrite Hrun in Hmax. by injection Hmax as <- <-.
Qed.

(** When [chainTasks] returns on a list that holds task descriptors only,
    the chain has the Lambda tasks of the descriptors in the order of the
    list, the first one built with the flag [first] and the others with
    ['$.Payload']; the tasks are registered in that order, the list is left
    empty and no other array is changed. *)
Theorem chainTasks_tasks_in_order fuel a first s o os chain s' :
  heap s !! a = Some (ItObject <$> o :: os) ->
  chainTasks fuel a first s = Ok (chain, s') ->
  chain = task_chain first o os /\
  states chain = name <$> o :: os /\
  heap s' = <[a := []]> (heap s) /\
  children s' =
    children s ++
      (KLambda <$> lambdaTask o first ::
                   ((fun o => lambdaTask o false) <$> os)).
Proof.
  intros Ha H.
  destruct (chainTasks_plain_returned _ _ _ _ _ _ _ _ Ha H)
    as (-> & Hheap & Hch).
  split; [done|]. split; [|split; [done|]].
  - clear. revert first o. induction os as [|o' os IH]; intros first o; simpl.
    + by destruct (lambdaTask_retries o first) as [-> _].
    + destruct (lambdaTask_retries o first) as [-> _]. by rewrite IH.
  - rewrite Hch. simpl. do 2 f_equal.
    apply (list_fmap_compose (fun o => lambdaTask o false) KLambda os).
Qed.

Lemma chainTasks_tasks_in_order_witness :
  exists chain s',
    heap two_tasks !! 1%positive =
      Some (ItObject <$> task "a" :: [retrying "b"]) /\
    chainTasks 2 1 true two_tasks = Ok (chain, s') /\
    chain = task_chain true (task "a") [retrying "b"] /\
    states chain = name <$> task "a" :: [retrying "b"] /\
    heap s' = <[1%positive := []]> (heap two_tasks) /\
    children s' =
      children two_tasks ++
        (KLambda <$> lambdaTask (task "a") true ::
                     ((fun o => lambdaTask o false) <$> [retrying "b"])).
Proof.
  destruct (chainTasks 2 1 true two_tasks) as [[chain s']| |] eqn:Hrun;
    [|vm_compute in Hrun; discriminate..].
  exists chain, s'. split; [reflexivity|]. split; [done|].
  by apply (chainTasks_tasks_in_order 2 1 true two_tasks (task "a")
              [retrying "b"] chain s').
Defined.

Lemma chainTasks_again_throws_witness :
  exists chain s',
    chainTasks 3 1 true two_tasks = Ok (chain, s') /\
    chainTasks 3 1 false s' = TypeError.
Proof.
  destruct (chainTasks 3 1 true two_tasks) as [[chain s']| |] eqn:Hrun;
    [|vm_compute in Hrun; discriminate..].
  exists chain, s'. split; [done|].
  by apply (chainTasks_again_throws 3 2 1 true false two_tasks chain s').
Defined.

(** A second construction from a list that a first construction used finds
    the list empty: it returns without a state machine, whatever its id and
    the other props. *)
Theorem constructor_again_unset fuel fuel' id id' props props' s machine s' :
  lambdaFunctions props' = lambdaFunctions props ->
  constructor fuel id props s = Ok (Some machine, s') ->
  constructor fuel' id' props' s' = Ok (None, s').
Proof.
  intros Hsame H. unfold constructor in H.
  inv_bind H. case_decide as Hlen; [discriminate|].
  inv_bind H. destruct x0 as [chain s1].
  apply chainTasks_emptied in Hx0.
  assert (heap s' = heap s1) as Hheap.
  { destruct (errorHandler props); by injection H as _ <-. }
  unfold constructor, array_length. by rewrite Hsame, Hheap, Hx0.
Qed.

Lemma constructor_again_unset_witness :
  exists machine s',
    constructor 3 "wf"
      {| lambdaFunctions := 1; errorHandler := Some onError;
         stateMachineName := "workflow" |} two_tasks = Ok (Some machine, s') /\
    constructor 3 "wf2"
      {| lambdaFunctions := 1; errorHandler := None;
         stateMachineName := "other" |} s' = Ok (None, s').
Proof.
  destruct (constructor 3 "wf"
              {| lambdaFunctions := 1; errorHandler := Some onError;
                 stateMachineName := "workflow" |} two_tasks)
    as [[[machine|] s']| |] eqn:Hrun; [|vm_compute in Hrun; discriminate..].
  exists machine, s'. split; [done|].
  by apply (constructor_again_unset 3 3 "wf" "wf2"
              {| lambdaFunctions := 1; errorHandler := Some onError;
                 stateMachineName := "workflow" |}
              {| lambdaFunctions := 1; errorHandler := None;
                 stateMachineName := "other" |} two_tasks machine s').
Defined.

(** ** The branches of a choice *)

(** With a [Pass] as [defaultFunctions] the loop returns only when every
    entry passes, and it calls nothing. *)
Lemma addChoice_loop_pass_default rec choice first p todo res s whens s' :
  defaultFunctions choice = FPass p ->
  addChoice_loop rec choice first todo res s = Ok (whens, s') ->
  Forall passes todo /\ whens = res ++ (pass_branch choice <$> todo) /\ s' = s.
Proof.
  intros Hd. revert res.
  induction todo as [|choiceObj todo IH]; intros res H; simpl in H.
  - injection H as <- <-. by rewrite app_nil_r.
  - destruct (functions choiceObj) as [[a|q]|] eqn:Hfs; simpl in H;
      try discriminate; rewrite Hd in H; try discriminate. simpl in H.
    destruct (IH _ H) as (Hall & -> & ->).
    split; [constructor; [by exists q|done]|]. split; [|done].
    rewrite <- (assoc_L (++)). simpl. do 2 f_equal.
    unfold pass_branch. by rewrite Hd.
Qed.

(** With an array as [defaultFunctions] the loop returns only for no entry
    or for one entry whose [functions] are an array: an entry that passes
    hands the array to [when], and a second call of [chainTasks] finds the
    array empty. *)
Lemma addChoice_loop_array_default fuel choice first d todo res s whens s' :
  defaultFunctions choice = FArray d ->
  addChoice_loop (chainTasks fuel) choice first todo res s = Ok (whens, s') ->
  (todo = [] /\ whens = res /\ s' = s) \/
  exists choiceObj a chain,
    todo = [choiceObj] /\ functions choiceObj = Some (FArray a) /\
    chainTasks fuel d first s = Ok (chain, s') /\
    whens = res ++ [(condition choiceObj, BChain chain)].
Proof.
  intros Hd H. destruct todo as [|choiceObj todo]; simpl in H.
  { injection H as <- <-. by left. }
  right.
  destruct (functions choiceObj) as [[a|q]|] eqn:Hfs; simpl in H;
    try discriminate; rewrite Hd in H; try discriminate.
  inv_bind H. inv_bind Hx. destruct x0 as [chain s1]. injection Hx as <-.
  exists choiceObj, a, chain.
  destruct todo as [|choiceObj2 todo]; simpl in H.
  { by injection H as <- <-. }
  exfalso.
  destruct (functions choiceObj2) as [[a2|q2]|]; simpl in H;
    try discriminate; rewrite Hd in H; try discriminate.
  inv_bind H. inv_bind Hx. destruct x0 as [chain2 s2].
  apply chainTasks_emptied in Hx0.
  apply chainTasks_nonempty in Hx1 as (it & rest & Hne). congruence.
Qed.

(** When [addChoice] returns on a choice all of whose entries have a [Pass]
    as [functions] (a choice without entries too), the choice has one branch
    for each entry, in the order of the entries, with the entry's condition
    and the object [defaultFunctions] as its body; only the choice was
    registered and no array was read; and [defaultFunctions] was a [Pass]
    unless there was no entry. *)
Theorem addChoice_pass_branches fuel choice first s task s' :
  Forall passes (choices choice) ->
  addChoice (chainTasks fuel) choice first s = Ok (task, s') ->
  task = CAfterwards (choiceName choice)
           (pass_branch choice <$> choices choice) /\
  s' = new (KChoice (choiceName choice)) s /\
  (choices choice = [] \/ exists p, defaultFunctions choice = FPass p).
Proof.
  intros Hall. unfold addChoice. case_decide as Hlen.
  - intros [= <- <-]. apply nil_length_inv in Hlen as ->.
    split; [done|]. split; [done|]. by left.
  - intros H. inv_bind H. destruct x as [whens s1]. injection H as <- <-.
    destruct (defaultFunctions choice) as [d|p] eqn:Hd.
    + destruct (addChoice_loop_array_default _ _ _ _ _ _ _ _ _ Hd Hx)
        as [(Hnil & _)|(c & a & chain & Hone & Hfs & _)].
      * by rewrite Hnil in Hlen.
      * rewrite Hone in Hall. apply Forall_singleton in Hall as [q Hq].
        congruence.
    + destruct (addChoice_loop_pass_default _ _ _ _ _ _ _ _ _ Hd Hx)
        as (_ & Hwhens & Hs).
      rewrite Hwhens, Hs. split; [done|]. split; [done|]. right. by exists p.
Qed.

Lemma addChoice_pass_branches_witness :
  exists afterwards s',
    Forall passes (choices pass_choice) /\
    addChoice (chainTasks 0) pass_choice true no_task = Ok (afterwards, s') /\
    afterwards = CAfterwards "gate"
             [ ("isA", BRaw (FPass {| passId := "done" |}));
               ("isB", BRaw (FPass {| passId := "done" |})) ] /\
    s' = new (KChoice "gate") no_task /\
    (choices pass_choice = [] \/
     exists p, defaultFunctions pass_choice = FPass p).
Proof.
  assert (Forall passes (choices pass_choice)) as Hall.
  { repeat constructor; by eexists. }
  destruct (addChoice (chainTasks 0) pass_choice true no_task)
    as [[afterwards s']| |] eqn:Hrun; [|vm_compute in Hrun; discriminate..].
  exists afterwards, s'. split; [done|]. split; [done|].
  by apply (addChoice_pass_branches 0 pass_choice true no_task afterwards s').
Defined.

(** When [addChoice] returns on a choice with one entry, whose [functions]
    are an array, and with an array of task descriptors as
    [defaultFunctions], the one branch has the entry's condition and as its
    body the chain of the tasks of [defaultFunctions], the first of them
    built with the flag [first] and the others with ['$.Payload']; that
    array is left empty, and the choice and then the tasks are
    registered. *)
Theorem addChoice_one_chain fuel choice first s choiceObj a d o os task s' :
  choices choice = [choiceObj] ->
  functions choiceObj = Some (FArray a) ->
  defaultFunctions choice = FArray d ->
  heap s !! d = Some (ItObject <$> o :: os) ->
  addChoice (chainTasks fuel) choice first s = Ok (task, s') ->
  task = CAfterwards (choiceName choice)
           [(condition choiceObj, BChain (task_chain first o os))] /\
  heap s' = <[d := []]> (heap s) /\
  children s' =
    children s ++
      KChoice (choiceName choice) ::
      KLambda (lambdaTask o first) ::
      ((fun o => KLambda (lambdaTask o false)) <$> os).
Proof.
  intros Hch Hfs Hd Harr H. unfold addChoice in H. rewrite Hch in H.
  simpl in H. rewrite Hfs in H. simpl in H. rewrite Hd in H.
  destruct (chainTasks fuel d first (new (KChoice (choiceName choice)) s))
    as [[chain s1]| |] eqn:Hrun; [simpl in H|discriminate..].
  injection H as <- <-.
  destruct (chainTasks_plain_returned fuel d first
              (new (KChoice (choiceName choice)) s) o os chain s1 Harr Hrun)
    as (-> & Hheap & Hchildren).
  split; [done|]. split; [done|].
  rewrite Hchildren. simpl. by rewrite <- (assoc_L (++)).
Qed.

Lemma addChoice_one_chain_witness :
  exists afterwards s',
    choices one_branch =
      [ {| condition := "isA"; functions := Some (FArray 3) |} ] /\
    heap branch_arrays !! 2%positive =
      Some (ItObject <$> task "h" :: [retrying "k"]) /\
    addChoice (chainTasks 2) one_branch true branch_arrays = Ok (afterwards, s') /\
    afterwards = CAfterwards "route"
             [ ("isA", BChain (task_chain true (task "h") [retrying "k"])) ] /\
    heap s' = <[2%positive := []]> (heap branch_arrays) /\
    children s' =
      children branch_arrays ++
        KChoice "route" ::
        KLambda (lambdaTask (task "h") true) ::
        ((fun o => KLambda (lambdaTask o false)) <$> [retrying "k"]).
Proof.
  destruct (addChoice (chainTasks 2) one_branch true branch_arrays)
    as [[afterwards s']| |] eqn:Hrun; [|vm_compute in Hrun; discriminate..].
  exists afterwards, s'. split; [reflexivity|]. split; [reflexivity|].
  split; [done|].
  by apply (addChoice_one_chain 2 one_branch true branch_arrays
              {| condition := "isA"; functions := Some (FArray 3) |}
              3 2 (task "h") [retrying "k"] afterwards s').
Defined.

(** When [addChoice] returns, the choice is one of two kinds.  Either every
    entry has a [Pass] as [functions]: then there is one branch for each
    entry, in the order of the entries, with the entry's condition and the
    object [defaultFunctions] as its body, [defaultFunctions] is a [Pass]
    unless there is no entry, and only the choice was registered.  Or the
    choice has exactly one entry, whose [functions] are an array, and
    [defaultFunctions] is an array: then the one branch has the entry's
    condition and, as its body, the chain that [chainTasks] returned for the
    array [defaultFunctions] under the same flag [first], called right after
    the choice was registered. *)
Theorem addChoice_branches fuel choice first s task s' :
  addChoice (chainTasks fuel) choice first s = Ok (task, s') ->
  (Forall passes (choices choice) /\
   (choices choice = [] \/ exists p, defaultFunctions choice = FPass p) /\
   task = CAfterwards (choiceName choice)
            (pass_branch choice <$> choices choice) /\
   s' = new (KChoice (choiceName choice)) s) \/
  (exists choiceObj a d chain,
     choices choice = [choiceObj] /\
     functions choiceObj = Some (FArray a) /\
     defaultFunctions choice = FArray d /\
     chainTasks fuel d first (new (KChoice (choiceName choice)) s) =
       Ok (chain, s') /\
     task = CAfterwards (choiceName choice)
              [(condition choiceObj, BChain chain)]).
Proof.
  unfold addChoice. case_decide as Hlen.
  - intros [= <- <-]. apply nil_length_inv in Hlen as ->. left.
    split; [constructor|]. split; [by left|]. by split.
  - intros H. inv_bind H. destruct x as [whens s1]. injection H as <- <-.
    destruct (defaultFunctions choice) as [d|p] eqn:Hd.
    + destruct (addChoice_loop_array_default _ _ _ _ _ _ _ _ _ Hd Hx)
        as [(Hnil & _)|(c & a & chain & Hone & Hfs & Hrun & Hwhens)].
      * by rewrite Hnil in Hlen.
      * right. rewrite Hwhens. by exists c, a, d, chain.
    + destruct (addChoice_loop_pass_default _ _ _ _ _ _ _ _ _ Hd Hx)
        as (Hall & Hwhens & Hs).
      rewrite Hwhens, Hs. left. split; [done|].
      split; [right; by exists p|]. by split.
Qed.

Lemma addChoice_branches_witness :
  exists afterwards s',
    addChoice (chainTasks 2) one_branch true branch_arrays = Ok (afterwards, s') /\
    exists choiceObj a d chain,
      choices one_branch = [choiceObj] /\
      functions choiceObj = Some (FArray a) /\
      defaultFunctions one_branch = FArray d /\
      chainTasks 2 d true (new (KChoice (choiceName one_branch)) branch_arrays) =
        Ok (chain, s') /\
      afterwards = CAfterwards (choiceName one_branch)
               [(condition choiceObj, BChain chain)].
Proof.
  destruct (addChoice (chainTasks 2) one_branch true branch_arrays)
    as [[afterwards s']| |] eqn:Hrun; [|vm_compute in Hrun; discriminate..].
  exists afterwards, s'. split; [done|].
  destruct (addChoice_branches 2 one_branch true branch_arrays afterwards s' Hrun)
    as [(Hall & _)|Hone]; [|done].
  apply Forall_singleton in Hall as [p Hp]. discriminate.
Defined.

(** ** What a call leaves alone *)

Section untouched.

Variable R : gset loc.

Lemma within_refl s : closed R s -> within R s s.
Proof. by split. Qed.

Lemma within_trans s1 s2 s3 : within R s1 s2 -> within R s2 s3 -> within R s1 s3.
Proof.
  intros [_ H12] [Hcl H23]. split; [done|].
  intros b Hb. by rewrite H23, H12.
Qed.

Lemma shift_within a s o s1 :
  a ∈ R -> closed R s -> shift a s = Ok (o, s1) -> within R s s1.
Proof.
  intros Ha Hcl (arr & Harr & -> & ->)%shift_Ok. split.
  - by apply closed_shift.
  - intros b Hb. simpl. apply lookup_insert_ne. by intros <-.
Qed.

Section body_untouched.

Variable rec : loc -> bool -> St -> result (Chain * St).
Hypothesis rec_within : forall a f s c s',
  a ∈ R -> closed R s -> rec a f s = Ok (c, s') -> within R s s'.

Lemma addChoice_loop_within choice first todo res s whens s' :
  (forall d, defaultFunctions choice = FArray d -> d ∈ R) ->
  closed R s ->
  addChoice_loop rec choice first todo res s = Ok (whens, s') ->
  within R s s'.
Proof.
  intros Hd. revert res s.
  induction todo as [|choiceObj todo IH]; intros res s Hcl H; simpl in H.
  - injection H as <- <-. by apply within_refl.
  - inv_bind H. inv_bind H. destruct x0 as [next s1].
    assert (within R s s1) as Hs1.
    { destruct (has_endStates x).
      - destruct (defaultFunctions choice) as [d|p]; [discriminate|].
        injection Hx0 as <- <-. by apply within_refl.
      - destruct (defaultFunctions choice) as [d|]; [|discriminate].
        inv_bind Hx0. destruct x0 as [c s2]. injection Hx0 as <- <-.
        eapply rec_within; eauto. }
    apply (within_trans s s1 s'); [done|].
    eapply IH; [apply Hs1|exact H].
Qed.

Lemma addChoice_within choice first s task s' :
  (forall d, defaultFunctions choice = FArray d -> d ∈ R) ->
  closed R s ->
  addChoice rec choice first s = Ok (task, s') ->
  within R s s'.
Proof.
  intros Hd Hcl. unfold addChoice. case_decide as Hlen.
  - intros [= <- <-]. exact (within_refl s Hcl).
  - intros H. inv_bind H. destruct x as [whens s1]. injection H as <- <-.
    apply addChoice_loop_within in Hx; [exact Hx|done|exact Hcl].
Qed.

Lemma chainTasks_body_within a first s chain s' :
  a ∈ R -> closed R s ->
  chainTasks_body rec a first s = Ok (chain, s') -> within R s s'.
Proof.
  intros Ha Hcl H. unfold chainTasks_body, chainTasks_task in H.
  inv_bind H. destruct x as [[task first'] s2].
  inv_bind Hx. destruct x as [sfnObject s1].
  pose proof (shift_within _ _ _ _ Ha Hcl Hx0) as Hs1.
  assert (within R s s2) as Hs2.
  { destruct sfnObject as [[o|c]|]; [| |discriminate].
    - injection Hx as <- <- <-. exact Hs1.
    - inv_bind Hx. destruct x as [task' s3]. injection Hx as <- <- <-.
      apply (within_trans s s1 s3); [done|].
      apply addChoice_within in Hx1; [done| |apply Hs1].
      intros d Hd. apply shift_Ok in Hx0 as (arr & Harr & Hhd & _).
      destruct arr as [|it rest]; [discriminate|]. injection Hhd as <-.
      apply (Hcl a (ItChoice c :: rest) c d); [done..| |done].
      apply list_elem_of_here. }
  inv_bind H. case_decide as Hlen.
  - by injection H as <- <-.
  - inv_bind H. destruct x0 as [rest s3]. injection H as <- <-.
    apply (within_trans s s2 s3); [done|].
    eapply rec_within; [done|apply Hs2|done].
Qed.

End body_untouched.

Lemma chainTasks_within fuel a first s chain s' :
  a ∈ R -> closed R s ->
  chainTasks fuel a first s = Ok (chain, s') -> within R s s'.
Proof.
  revert a first s chain s'.
  induction fuel as [|fuel IH]; intros a first s chain s' Ha Hcl H;
    [discriminate|].
  simpl in H. by apply chainTasks_body_within in H.
Qed.

End untouched.

(** A call of [chainTasks] that returns has changed no array but those it
    can reach: the array it was given and the arrays [defaultFunctions] of
    the choices in them.  The arrays [functions] of the entries of a choice
    and every other array of the caller are as they were. *)
Theorem chainTasks_touches_reachable (R : gset loc) fuel a first s chain s' :
  a ∈ R -> closed R s ->
  chainTasks fuel a first s = Ok (chain, s') ->
  forall b, b ∉ R -> heap s' !! b = heap s !! b.
Proof.
  intros Ha Hcl H. by destruct (chainTasks_within R _ _ _ _ _ _ Ha Hcl H).
Qed.

Lemma choice_then_task_closed : closed {[1%positive; 2%positive]} choice_then_task.
Proof.
  intros a arr c d Ha Harr Hc Hd.
  apply elem_of_union in Ha as [->%elem_of_singleton| ->%elem_of_singleton];
    vm_compute in Harr; injection Harr as <-.
  - apply elem_of_cons in Hc as [[= ->]|Hc].
    + injection Hd as <-. apply elem_of_union. right.
      by apply elem_of_singleton.
    + apply elem_of_cons in Hc as [Hc|Hc]; [discriminate|].
      by apply elem_of_nil in Hc.
  - apply elem_of_cons in Hc as [Hc|Hc]; [discriminate|].
    by apply elem_of_nil in Hc.
Defined.

Lemma chainTasks_touches_reachable_witness :
  exists chain s',
    chainTasks 3 1 true choice_then_task = Ok (chain, s') /\
    heap s' !! 3%positive = Some [ItObject (task "f")].
Proof.
  destruct (chainTasks 3 1 true choice_then_task) as [[chain s']| |] eqn:Hrun;
    [|vm_compute in Hrun; discriminate..].
  exists chain, s'. split; [done|].
  rewrite (chainTasks_touches_reachable {[1%positive; 2%positive]} 3 1 true
             choice_then_task chain s'); [reflexivity| | |done|].
  - apply elem_of_union. left. by apply elem_of_singleton.
  - apply choice_then_task_closed.
  - by intros [?%elem_of_singleton| ?%elem_of_singleton]%elem_of_union.
Defined.

(** ** The order of the states *)

Lemma addChoice_states rec choice first s task s' :
  addChoice rec choice first s = Ok (task, s') ->
  states task = [choiceName choice].
Proof.
  unfold addChoice. case_decide as Hlen.
  - by intros [= <- <-].
  - intros H. inv_bind H. destruct x as [whens s1]. by injection H as <- <-.
Qed.

(** The task of a call is the state of the first descriptor of the list,
    and the list is left with the other descriptors, when no choice of the
    list has the list itself within reach. *)
Lemma chainTasks_task_head (R : gset loc) fuel a first s arr task first' s' :
  a ∉ R -> closed R s ->
  heap s !! a = Some arr ->
  (forall c d, ItChoice c ∈ arr -> defaultFunctions c = FArray d -> d ∈ R) ->
  chainTasks_task (chainTasks fuel) a first s = Ok (task, first', s') ->
  exists it rest,
    arr = it :: rest /\ states task = [item_id it] /\
    heap s' !! a = Some rest /\ closed R s'.
Proof.
  intros Ha Hcl Harr Hd H. unfold chainTasks_task in H.
  inv_bind H. destruct x as [sfnObject s1].
  apply shift_Ok in Hx as (arr0 & Harr0 & -> & ->).
  rewrite Harr in Harr0. injection Harr0 as <-.
  destruct arr as [|it rest]; [discriminate|].
  exists it, rest. split; [done|].
  set (s1 := set_heap (<[a := rest]> (heap s)) s) in *.
  assert (heap s1 !! a = Some rest) as Ha1 by (simpl; apply lookup_insert_eq).
  assert (closed R s1) as Hcl1.
  { intros b arr' c d Hb Hlook Hc Hdc. simpl in Hlook.
    rewrite lookup_insert_ne in Hlook by (by intros <-).
    by apply (Hcl b arr' c d). }
  simpl in H. destruct it as [o|c].
  - injection H as <- <- <-. split; [|done].
    simpl. by destruct (lambdaTask_retries o first) as [-> _].
  - inv_bind H. destruct x as [task' s3]. injection H as <- <- <-.
    split; [by apply addChoice_states in Hx|].
    apply (addChoice_within R) in Hx as [Hcl3 Hsame]; [|apply chainTasks_within| |done].
    + split; [|done]. by rewrite Hsame.
    + intros d Hdc. apply (Hd c d); [apply list_elem_of_here|done].
Qed.

(** When [chainTasks] returns a chain for a list that none of its choices
    has within reach (the arrays [defaultFunctions] of the choices, in [R],
    are other arrays than the list), the states of the chain are the
    descriptors of the list, each once and in the order of the list: a task
    descriptor as the Lambda task of its name, a choice descriptor as the
    choice of its name. *)
Theorem chainTasks_order (R : gset loc) fuel a first s arr chain s' :
  a ∉ R -> closed R s ->
  heap s !! a = Some arr ->
  (forall c d, ItChoice c ∈ arr -> defaultFunctions c = FArray d -> d ∈ R) ->
  chainTasks fuel a first s = Ok (chain, s') ->
  states chain = item_id <$> arr.
Proof.
  intros Ha. revert first s arr chain s'.
  induction fuel as [|fuel IH]; intros first s arr chain s' Hcl Harr Hd H;
    [discriminate|].
  simpl in H. unfold chainTasks_body in H.
  inv_bind H. destruct x as [[task first'] s2].
  destruct (chainTasks_task_head R _ _ _ _ _ _ _ _ Ha Hcl Harr Hd Hx)
    as (it & rest & -> & Htask & Hrest & Hcl2).
  inv_bind H. apply array_length_Ok in Hx0 as (arr2 & Harr2 & ->).
  rewrite Hrest in Harr2. injection Harr2 as <-.
  case_decide as Hlen.
  - injection H as <- <-. apply nil_length_inv in Hlen as ->. by rewrite Htask.
  - inv_bind H. destruct x as [next s3]. injection H as <- <-.
    simpl. rewrite Htask. simpl. f_equal.
    apply (IH first' s2 rest next s3); [done..| |done].
    intros c d Hc. apply Hd. by apply list_elem_of_further.
Qed.

Lemma chainTasks_order_witness :
  exists chain s',
    chainTasks 3 1 true choice_then_task = Ok (chain, s') /\
    states chain = ["route"; "g"].
Proof.
  destruct (chainTasks 3 1 true choice_then_task) as [[chain s']| |] eqn:Hrun;
    [|vm_compute in Hrun; discriminate..].
  exists chain, s'. split; [done|].
  apply (chainTasks_order {[2%positive]} 3 1 true choice_then_task
           [ItChoice one_branch; ItObject (task "g")] chain s');
    [| |reflexivity| |done].
  - by intros ?%elem_of_singleton.
  - intros a arr c d ->%elem_of_singleton Harr Hc _.
    vm_compute in Harr. injection Harr as <-.
    apply elem_of_cons in Hc as [Hc|Hc]; [discriminate|].
    by apply elem_of_nil in Hc.
  - intros c d Hc Hd. apply elem_of_cons in Hc as [[= ->]|Hc].
    + injection Hd as <-. by apply elem_of_singleton.
    + apply elem_of_cons in Hc as [Hc|Hc]; [discriminate|].
      by apply elem_of_nil in Hc.
Defined.

(** ** The input paths under the flag [first] *)

Lemma lambdas_app ks1 ks2 : lambdas (ks1 ++ ks2) = lambdas ks1 ++ lambdas ks2.
Proof. apply omap_app. Qed.

Lemma input_paths_nil first : input_paths first [].
Proof. destruct first; simpl; [done|constructor]. Qed.

Lemma input_paths_app first ts1 ts2 :
  input_paths first ts1 -> input_paths first ts2 ->
  input_paths first (ts1 ++ ts2).
Proof.
  destruct first; simpl.
  - intros H1 H2 t. destruct ts1; simpl; [apply H2|apply H1].
  - intros H1 H2. by apply Forall_app.
Qed.

Lemma input_paths_task first o ts :
  input_paths false ts -> input_paths first (lambdaTask o first :: ts).
Proof.
  assert (inputPath (lambdaTask o first) =
          if first then None else Some "$.Payload") as Hpath.
  { unfold lambdaTask. by destruct (Types.config o). }
  destruct first; simpl.
  - by intros _ t [= <-].
  - intros H. by constructor.
Qed.

Section flag.

Variable rec : loc -> bool -> St -> result (Chain * St).
Hypothesis rec_paths : forall a first s chain s',
  rec a first s = Ok (chain, s') ->
  exists added,
    children s' = children s ++ added /\ input_paths first (lambdas added).

Lemma addChoice_loop_paths choice first todo res s whens s' :
  addChoice_loop rec choice first todo res s = Ok (whens, s') ->
  exists added,
    children s' = children s ++ added /\ input_paths first (lambdas added).
Proof.
  revert res s. induction todo as [|choiceObj todo IH]; intros res s H;
    simpl in H.
  - injection H as <- <-. exists []. split; [by rewrite app_nil_r|].
    apply input_paths_nil.
  - inv_bind H. inv_bind H. destruct x0 as [next s1].
    destruct (IH _ _ H) as (added2 & Hch2 & Hok2).
    destruct (has_endStates x).
    + destruct (defaultFunctions choice) as [d|p]; [discriminate|].
      injection Hx0 as <- <-. by exists added2.
    + destruct (defaultFunctions choice) as [d|]; [|discriminate].
      inv_bind Hx0. destruct x0 as [c s2]. injection Hx0 as <- <-.
      destruct (rec_paths _ _ _ _ _ Hx1) as (added1 & Hch1 & Hok1).
      exists (added1 ++ added2). split.
      * by rewrite Hch2, Hch1, (assoc_L (++)).
      * rewrite lambdas_app. by apply input_paths_app.
Qed.

Lemma addChoice_paths choice first s task s' :
  addChoice rec choice first s = Ok (task, s') ->
  exists added,
    children s' = children s ++ added /\ input_paths first (lambdas added).
Proof.
  unfold addChoice. case_decide as Hlen.
  - intros [= <- <-]. exists [KChoice (choiceName choice)]. split; [done|].
    apply input_paths_nil.
  - intros H. inv_bind H. destruct x as [whens s1]. injection H as <- <-.
    apply addChoice_loop_paths in Hx as (added & Hch & Hok).
    exists (KChoice (choiceName choice) :: added). split; [|done].
    rewrite Hch. simpl. by rewrite <- (assoc_L (++)).
Qed.

Lemma chainTasks_body_paths a first s chain s' :
  chainTasks_body rec a first s = Ok (chain, s') ->
  exists added,
    children s' = children s ++ added /\ input_paths first (lambdas added).
Proof.
  intros H. unfold chainTasks_body, chainTasks_task in H.
  inv_bind H. destruct x as [[task first'] s2].
  inv_bind Hx. destruct x as [sfnObject s1].
  apply shift_Ok in Hx0 as (arr & _ & _ & ->).
  assert (exists added1,
            children s2 = children s ++ added1 /\
            forall ts, input_paths first' ts ->
              input_paths first (lambdas added1 ++ ts)) as (added1 & Hch1 & Hok1).
  { destruct sfnObject as [[o|c]|]; [| |discriminate].
    - injection Hx as <- <- <-. exists [KLambda (lambdaTask o first)].
      split; [done|]. intros ts Hts. by apply input_paths_task.
    - inv_bind Hx. destruct x as [task' s3]. injection Hx as <- <- <-.
      apply addChoice_paths in Hx0 as (added1 & Hch1 & Hok1).
      exists added1. split; [done|]. intros ts Hts. by apply input_paths_app. }
  inv_bind H. case_decide as Hlen.
  - injection H as <- <-. exists added1. split; [done|].
    rewrite <- (app_nil_r (lambdas added1)). apply Hok1, input_paths_nil.
  - inv_bind H. destruct x0 as [next s3]. injection H as <- <-.
    destruct (rec_paths _ _ _ _ _ Hx1) as (added2 & Hch2 & Hok2).
    exists (added1 ++ added2). split.
    + by rewrite Hch2, Hch1, (assoc_L (++)).
    + rewrite lambdas_app. by apply Hok1.
Qed.

End flag.

(** The flag [first] of a call that returns decides the input paths of the
    Lambda tasks the call builds, those of the branches of its choices
    included: under [true] the first Lambda task built reads the whole
    input of the state machine (no input path), under [false] every Lambda
    task built reads ['$.Payload']. *)
Theorem chainTasks_input_paths fuel a first s chain s' :
  chainTasks fuel a first s = Ok (chain, s') ->
  exists added,
    children s' = children s ++ added /\ input_paths first (lambdas added).
Proof.
  revert a first s chain s'.
  induction fuel as [|fuel IH]; intros a first s chain s' H; [discriminate|].
  simpl in H. by apply (chainTasks_body_paths (chainTasks fuel) IH) in H.
Qed.

Lemma chainTasks_input_paths_witness :
  exists chain s' added,
    chainTasks 3 1 false choice_then_task = Ok (chain, s') /\
    children s' = children choice_then_task ++ added /\
    input_paths false (lambdas added).
Proof.
  destruct (chainTasks 3 1 false choice_then_task) as [[chain s']| |] eqn:Hrun;
    [|vm_compute in Hrun; discriminate..].
  destruct (chainTasks_input_paths 3 1 false choice_then_task chain s' Hrun)
    as (added & Hch & Hok).
  by exists chain, s', added.
Defined.

(** ** What the constructor registers *)

Lemma lambdaTask_settings o first :
  retryOnServiceExceptions (lambdaTask o first) = false /\
  length (retries (lambdaTask o first)) <= 1 /\
  (inputPath (lambdaTask o first) = None \/
   inputPath (lambdaTask o first) = Some "$.Payload").
Proof.
  unfold lambdaTask.
  destruct (Types.config o), first; simpl; split; try done;
    (split; [lia|auto]).
Qed.

(** Every Lambda task a construction registers, for a task descriptor or
    for the error handler, has the retries on service exceptions switched
    off, at most one retry, and as its input path nothing or
    ['$.Payload']. *)
Theorem constructor_lambdas fuel id props s r s' :
  constructor fuel id props s = Ok (r, s') ->
  exists added,
    children s' = children s ++ added /\
    forall t, KLambda t ∈ added ->
      retryOnServiceExceptions t = false /\
      length (retries t) <= 1 /\
      (inputPath t = None \/ inputPath t = Some "$.Payload").
Proof.
  intros H. unfold constructor in H. inv_bind H. case_decide as Hlen.
  - injection H as <- <-. exists []. split; [by rewrite app_nil_r|].
    by intros t Ht%elem_of_nil.
  - inv_bind H. destruct x0 as [chain s1].
    destruct (chainTasks_builds _ _ _ _ _ _ Hx0) as (added1 & Hch1 & Hfrom & _).
    simpl in Hch1. rewrite Forall_forall in Hfrom.
    assert (forall t, KLambda t ∈ added1 ->
              retryOnServiceExceptions t = false /\
              length (retries t) <= 1 /\
              (inputPath t = None \/ inputPath t = Some "$.Payload")) as Hadded1.
    { intros t Ht. destruct (Hfrom _ Ht) as (b & arr & o & f & _ & _ & ->).
      apply lambdaTask_settings. }
    destruct (errorHandler props) as [h|]; injection H as <- <-; simpl;
      rewrite Hch1; eexists; (split; [by rewrite <- !(assoc_L (++))|]);
      intros t Ht; simpl in Ht;
      repeat (apply elem_of_cons in Ht as [Ht|Ht]; [try discriminate|]);
      repeat (apply elem_of_app in Ht as [Ht|Ht]; [by apply Hadded1|]);
      repeat (apply elem_of_cons in Ht as [Ht|Ht]; [try discriminate|]);
      try (by apply elem_of_nil in Ht).
    injection Ht as ->. simpl. split; [done|]. split; [lia|by left].
Qed.

Lemma constructor_lambdas_witness :
  exists r s' added,
    constructor 3 "wf"
      {| lambdaFunctions := 1; errorHandler := Some onError;
         stateMachineName := "workflow" |} two_tasks = Ok (r, s') /\
    children s' = children two_tasks ++ added /\
    forall t, KLambda t ∈ added ->
      retryOnServiceExceptions t = false /\
      length (retries t) <= 1 /\
      (inputPath t = None \/ inputPath t = Some "$.Payload").
Proof.
  destruct (constructor 3 "wf"
              {| lambdaFunctions := 1; errorHandler := Some onError;
                 stateMachineName := "workflow" |} two_tasks)
    as [[r s']| |] eqn:Hrun; [|vm_compute in Hrun; discriminate..].
  destruct (constructor_lambdas 3 "wf" _ two_tasks r s' Hrun)
    as (added & Hch & Hall).
  by exists r, s', added.
Defined.

(** The field [stateMachine] is left unset for the empty list only, and
    then the construction changes nothing.  Otherwise the list was not
    empty and the state machine has [stateMachineName] as its id and as its
    name and logs everything to the log group [logGroup-<id>], named
    [/aws/vendedlogs/states/<stateMachineName>] and destroyed with the
    stack; its definition is the parallel state [paralle-<id>] with one
    branch; the parallel state is the first construct registered, the log
    group and the state machine are the last two. *)
Theorem constructor_state_machine fuel id props s r s' :
  constructor fuel id props s = Ok (r, s') ->
  match r with
  | None => heap s !! lambdaFunctions props = Some [] /\ s' = s
  | Some machine =>
      (exists it rest, heap s !! lambdaFunctions props = Some (it :: rest)) /\
      stateMachineId machine = stateMachineName props /\
      machineName machine = stateMachineName props /\
      logsLevel machine = ALL /\
      logsDestination machine =
        {| logGroupId := "logGroup-" +:+ id;
           logGroupName := "/aws/vendedlogs/states/" +:+ stateMachineName props;
           removalPolicy := DESTROY |} /\
      parallelId (definition machine) = "paralle-" +:+ id /\
      length (branches (definition machine)) = 1 /\
      exists between,
        children s' =
          children s ++ KParallel ("paralle-" +:+ id) ::
            between ++
            [KLogGroup (logsDestination machine); KStateMachine machine]
  end.
Proof.
  intros H. unfold constructor in H. inv_bind H.
  apply array_length_Ok in Hx as (arr & Harr & ->).
  case_decide as Hlen.
  - injection H as <- <-. by apply nil_length_inv in Hlen as ->.
  - inv_bind H. destruct x as [chain s1].
    destruct (chainTasks_builds _ _ _ _ _ _ Hx) as (added1 & Hch1 & _).
    simpl in Hch1.
    destruct arr as [|it rest]; [done|].
    destruct (errorHandler props) as [h|]; injection H as <- <-; simpl;
      (split; [by exists it, rest|]); do 6 (split; [done|]); rewrite Hch1.
    + exists (added1 ++ [KLambda {| id := handlerName h;
                                    lambdaFunction := handlerFunction h;
                                    inputPath := None;
                                    retryOnServiceExceptions := false;
                                    retries := [] |}]).
      by rewrite <- !(assoc_L (++)).
    + exists added1. by rewrite <- !(assoc_L (++)).
Qed.

Lemma constructor_state_machine_witness :
  exists machine s',
    constructor 3 "wf"
      {| lambdaFunctions := 1; errorHandler := None;
         stateMachineName := "workflow" |} two_tasks = Ok (Some machine, s') /\
    stateMachineId machine = "workflow" /\
    logsDestination machine =
      {| logGroupId := "logGroup-wf";
         logGroupName := "/aws/vendedlogs/states/workflow";
         removalPolicy := DESTROY |} /\
    parallelId (definition machine) = "paralle-wf".
Proof.
  destruct (constructor 3 "wf"
              {| lambdaFunctions := 1; errorHandler := None;
                 stateMachineName := "workflow" |} two_tasks)
    as [[[machine|] s']| |] eqn:Hrun; [|vm_compute in Hrun; discriminate..].
  pose proof (constructor_state_machine 3 "wf" _ two_tasks _ s' Hrun)
    as (_ & Hid & _ & _ & Hlog & Hpar & _).
  by exists machine, s'.
Defined.

(** ** The arrays after a call *)

(** A call of [chainTasks] that returns only took descriptors from the
    front of arrays: no array was created or removed, and every array is
    what was left of it after some of its first descriptors were taken, in
    the same order; and the store has fewer descriptors than before. *)
Theorem chainTasks_only_shifts fuel a first s chain s' :
  chainTasks fuel a first s = Ok (chain, s') ->
  heap_size (heap s') < heap_size (heap s) /\
  forall b,
    match heap s !! b with
    | Some arr => exists used arr', arr = used ++ arr' /\ heap s' !! b = Some arr'
    | None => heap s' !! b = None
    end.
Proof.
  intros H. split.
  - destruct fuel as [|fuel]; [discriminate|]. simpl in H.
    unfold chainTasks_body in H. inv_bind H. destruct x as [[task first'] s2].
    apply chainTasks_task_size in Hx. inv_bind H. case_decide as Hlen.
    + by injection H as <- <-.
    + inv_bind H. destruct x0 as [next s3]. injection H as <- <-.
      apply chainTasks_size in Hx1. lia.
  - destruct (chainTasks_builds _ _ _ _ _ _ H) as (added & _ & _ & Hheap).
    intros b. specialize (Hheap b). destruct (heap s !! b) as [arr|]; [|done].
    destruct Hheap as (used & arr' & ? & ? & _). by exists used, arr'.
Qed.

Lemma chainTasks_only_shifts_witness :
  exists chain s',
    chainTasks 3 1 true choice_then_task = Ok (chain, s') /\
    heap_size (heap s') < heap_size (heap choice_then_task).
Proof.
  destruct (chainTasks 3 1 true choice_then_task) as [[chain s']| |] eqn:Hrun;
    [|vm_compute in Hrun; discriminate..].
  exists chain, s'. split; [done|].
  by apply (chainTasks_only_shifts 3 1 true choice_then_task chain s').
Defined.
